(** * Netnode: a key-value store layered over IDA's netnode record store

    Shallow embedding of [netnode/netnode.py].  The Python class [Netnode]
    keeps all of its data in one [idaapi.netnode]; its methods are embedded
    as computations in a small state-and-exception monad over the content of
    that record store. *)

From Stdlib Require Import ZArith Ascii String List Lia.
From stdpp Require Import gmap strings list sorting fin_maps.

Open Scope Z_scope.

(** Python 2 [str]: a byte string. *)
Abbreviation bytes := (list Byte.byte).

(** ** Module constants (netnode.py, lines 7-11) *)

Definition BLOB_SIZE : Z := 1024.
Definition INT_KEYS_TAG : ascii := "M"%char.
Definition STR_KEYS_TAG : ascii := "N"%char.
Definition STR_TO_INT_MAP_TAG : ascii := "O"%char.

(** ** The record store, [idaapi.netnode] *)

(** Modelled from the spec: [idaapi] is an external collaborator (spec
    section 6).  The default tags of the supval and hashval tables, and the
    sentinel that ends an enumeration. *)
Definition stag : ascii := "S"%char.
Definition htag : ascii := "H"%char.
Definition BADNODE : Z := 2 ^ 64 - 1.

(** What a Python variable read from the store can hold: a byte string or an
    integer (a node index). *)
Inductive pyval : Type :=
  | PStr (b : bytes)
  | PInt (i : Z).

(** Python truthiness of such a value. *)
Definition truthy (v : pyval) : bool :=
  match v with
  | PStr b => match b with [] => false | _ :: _ => true end
  | PInt i => negb (i =? 0)
  end.

(** Modelled from the spec: the content of one namespace of the record store.
    [sups] are the integer-indexed arrays, one per tag; following the comment
    in [_strset] (a blob store is a specialized supval table), the blobs of a
    tag live in the array of that tag.  [hashes] are the string-indexed
    tables, one per tag; a slot holds a byte string or a node index. *)
Record netnode : Type := mk_netnode {
  sups : gmap (ascii * Z) bytes;
  hashes : gmap (ascii * string) pyval
}.

Definition empty_netnode : netnode := mk_netnode ∅ ∅.

(** ** Exceptions and the monad of the methods *)

Inductive exn : Type :=
  | KeyError
  | TypeError
  | AssertionError
  | NetnodeCorruptError
  | CodecError.  (* zlib.error, or the ValueError of json.loads *)

Inductive outcome (A : Type) : Type :=
  | Return (a : A)
  | Raise (e : exn).
Arguments Return {A} a.
Arguments Raise {A} e.

Definition py (A : Type) : Type := netnode → outcome A * netnode.

Definition ret {A} (a : A) : py A := λ n, (Return a, n).
Definition raise {A} (e : exn) : py A := λ n, (Raise e, n).
Definition bind {A B} (m : py A) (k : A → py B) : py B :=
  λ n, match m n with
       | (Return a, n') => k a n'
       | (Raise e, n') => (Raise e, n')
       end.

(** [try: m  except KeyError: h] *)
Definition except_KeyError {A} (m : py A) (h : py A) : py A :=
  λ n, match m n with
       | (Raise KeyError, n') => h n'
       | r => r
       end.

Declare Scope py_scope.
Delimit Scope py_scope with py.
Notation "'let!' x := m 'in' k" := (bind m (λ x, k))
  (at level 10, x name, m at level 100, k at level 200) : py_scope.
Notation "m ;; k" := (bind m (λ _, k))
  (at level 100, k at level 200, right associativity) : py_scope.
Open Scope py_scope.

(** ** Enumeration order of a space *)

(** Modelled from the spec: the keys of the space [tag] of a table, in the
    order in which the store enumerates them. *)
Definition tagged_keys {K V} `{Countable K} (R : relation K)
    `{∀ x y, Decision (R x y)} (m : gmap (ascii * K) V) (tag : ascii) : list K :=
  merge_sort R ((filter (λ tk, tk.1 = tag) (elements (dom m))).*2).

Definition strle (a b : string) : Prop := String.leb a b = true.
Global Instance strle_dec a b : Decision (strle a b).
Proof. unfold strle. apply _. Defined.

Definition Zkeys (m : gmap (ascii * Z) bytes) (tag : ascii) : list Z :=
  tagged_keys Z.le m tag.
Definition Skeys (m : gmap (ascii * string) pyval) (tag : ascii) : list string :=
  tagged_keys strle m tag.

(** The key that follows [i] in an enumeration. *)
Fixpoint next_after {K} `{EqDecision K} (i : K) (l : list K) : option K :=
  match l with
  | [] => None
  | k :: l' => if decide (k = i) then head l' else next_after i l'
  end.

(** ** Primitives of the record store *)

(** Modelled from the spec: direct slots and blobs indexed by an integer and
    a tag; reading an unset slot gives the absence sentinel [None]. *)
Definition supval (key : Z) (tag : ascii) : py (option bytes) :=
  λ n, (Return (sups n !! (tag, key)), n).
Definition supset (key : Z) (value : bytes) (tag : ascii) : py unit :=
  λ n, (Return (), mk_netnode (<[(tag, key) := value]> (sups n)) (hashes n)).
Definition supdel (key : Z) (tag : ascii) : py unit :=
  λ n, (Return (), mk_netnode (delete (tag, key) (sups n)) (hashes n)).
Definition getblob (key : Z) (tag : ascii) : py (option bytes) := supval key tag.
Definition setblob (value : bytes) (key : Z) (tag : ascii) : py unit :=
  supset key value tag.
Definition delblob (key : Z) (tag : ascii) : py unit := supdel key tag.

(** Modelled from the spec: direct slots indexed by a string and a tag. *)
Definition hashval (key : string) (tag : ascii) : py (option pyval) :=
  λ n, (Return (hashes n !! (tag, key)), n).
Definition hashset (key : string) (value : pyval) (tag : ascii) : py unit :=
  λ n, (Return (), mk_netnode (sups n) (<[(tag, key) := value]> (hashes n))).
Definition hashdel (key : string) (tag : ascii) : py unit :=
  λ n, (Return (), mk_netnode (sups n) (delete (tag, key) (hashes n))).

(** Modelled from the spec: first key and next key of a space, with the
    not-found sentinel at the end. *)
Definition sup1st (tag : ascii) : py Z :=
  λ n, (Return (default BADNODE (head (Zkeys (sups n) tag))), n).
Definition supnxt (i : Z) (tag : ascii) : py Z :=
  λ n, (Return (default BADNODE (next_after i (Zkeys (sups n) tag))), n).
Definition hash1st (tag : ascii) : py (option string) :=
  λ n, (Return (head (Skeys (hashes n) tag)), n).
Definition hashnxt (i : string) (tag : ascii) : py (option string) :=
  λ n, (Return (next_after i (Skeys (hashes n) tag)), n).

(** Modelled from the spec: the next free integer slot of a tagged space
    (spec section 6, and the comment in [_strset]: [suplast] fetches the next
    open slot), the index after the last one in use, 0 in an empty space. *)
Definition next_free_slot (m : gmap (ascii * Z) bytes) (tag : ascii) : Z :=
  match last (Zkeys m tag) with
  | Some i => i + 1
  | None => 0
  end.
Definition suplast (tag : ascii) : py Z :=
  λ n, (Return (next_free_slot (sups n) tag), n).

(** Modelled from the spec: destroying the namespace, and opening it again
    under the same name, which creates it empty. *)
Definition netnode_kill : py unit := λ _, (Return (), empty_netnode).
Definition netnode_open : py unit := ret ().

(** ** The class [Netnode] *)

(** A Python object used as a key: an integer, a string, or anything else. *)
Inductive key : Type :=
  | IntKey (i : Z)
  | StrKey (s : string)
  | OtherKey.

Global Instance key_eq_dec : EqDecision key.
Proof. solve_decision. Defined.

(** [len(value)] *)
Definition len (value : bytes) : Z := Z.of_nat (length value).

(** An argument that the record store takes as a node index: the call
    raises [TypeError] when the Python value is not an integer. *)
Definition as_index (v : pyval) : py Z :=
  match v with
  | PInt i => ret i
  | PStr _ => raise TypeError
  end.

Definition is_not_None {A} (o : option A) : bool :=
  match o with Some _ => true | None => false end.

Definition _intdel (key : Z) : py unit :=
  let did_del := false in
  let! b := getblob key INT_KEYS_TAG in
  let! did_del := (if is_not_None b
                   then delblob key INT_KEYS_TAG ;; ret true
                   else ret did_del) in
  let! v := supval key stag in
  let! did_del := (if is_not_None v
                   then supdel key stag ;; ret true
                   else ret did_del) in
  if negb did_del then raise KeyError else ret ().

Definition _intset (key : Z) (value : bytes) : py unit :=
  except_KeyError (_intdel key) (ret ()) ;;
  if len value >? BLOB_SIZE
  then setblob value key INT_KEYS_TAG
  else supset key value stag.

Definition _intget (key : Z) : py bytes :=
  let! v := getblob key INT_KEYS_TAG in
  match v with
  | Some b => ret b
  | None =>
      let! v := supval key stag in
      match v with
      | Some b => ret b
      | None => raise KeyError
      end
  end.

Definition _strdel (key : string) : py unit :=
  let did_del := false in
  let! intkey := hashval key STR_TO_INT_MAP_TAG in
  let! did_del := (match intkey with
                   | Some ik =>
                       let! i := as_index ik in
                       delblob i STR_KEYS_TAG ;;
                       hashdel key htag ;;
                       ret true
                   | None => ret did_del
                   end) in
  let! v := hashval key htag in
  let! did_del := (if from_option truthy false v
                   then hashdel key htag ;; ret true
                   else ret did_del) in
  if negb did_del then raise KeyError else ret ().

Definition _get_next_str_slot : py Z := suplast STR_KEYS_TAG.

Definition _strset (key : string) (value : bytes) : py unit :=
  except_KeyError (_strdel key) (ret ()) ;;
  if len value >? BLOB_SIZE
  then
    let! intkey := suplast STR_KEYS_TAG in
    setblob value intkey STR_KEYS_TAG ;;
    hashset key (PInt intkey) STR_TO_INT_MAP_TAG
  else hashset key (PStr value) htag.

Definition _strget (key : string) : py pyval :=
  let! intkey := hashval key STR_TO_INT_MAP_TAG in
  match intkey with
  | Some ik =>
      let! i := as_index ik in
      let! v := getblob i STR_KEYS_TAG in
      match v with
      | None => raise NetnodeCorruptError
      | Some b => ret (PStr b)
      end
  | None =>
      let! v := hashval key htag in
      match v with
      | Some x => ret x
      | None => raise KeyError
      end
  end.

(** The two [while] loops over an integer-indexed space, and the two over a
    string-indexed space.  [fuel] bounds the number of iterations; [None] is
    the answer of a loop that was cut off. *)
Fixpoint tour_sup (tag : ascii) (fuel : nat) (i : Z) : py (option (list Z)) :=
  match fuel with
  | O => ret None
  | S fuel' =>
      if decide (i ≠ BADNODE)
      then
        let! j := supnxt i tag in
        let! rest := tour_sup tag fuel' j in
        ret (cons i <$> rest)
      else ret (Some [])
  end.

Fixpoint tour_hash (tag : ascii) (fuel : nat) (i : option string)
  : py (option (list string)) :=
  match fuel with
  | O => ret None
  | S fuel' =>
      match i with
      | Some s =>
          let! j := hashnxt s tag in
          let! rest := tour_hash tag fuel' j in
          ret (cons s <$> rest)
      | None => ret (Some [])
      end
  end.

Definition iterkeys (fuel : nat) : py (option (list key)) :=
  (* integer keys for all small values *)
  let! i := sup1st stag in
  let! small_ints := tour_sup stag fuel i in
  (* integer keys for all big values *)
  let! i := sup1st INT_KEYS_TAG in
  let! big_ints := tour_sup INT_KEYS_TAG fuel i in
  (* string keys for all small values *)
  let! i := hash1st htag in
  let! small_strs := tour_hash htag fuel i in
  (* string keys for all big values *)
  let! i := hash1st STR_KEYS_TAG in
  let! big_strs := tour_hash STR_KEYS_TAG fuel i in
  ret (a ← small_ints; b ← big_ints; c ← small_strs; d ← big_strs;
       Some ((IntKey <$> a) ++ (IntKey <$> b) ++ (StrKey <$> c) ++ (StrKey <$> d))).

Definition keys (fuel : nat) : py (option (list key)) := iterkeys fuel.

Definition kill : py unit := netnode_kill ;; netnode_open.

(** The methods that go through the codec.  [V] is the type of the values a
    caller stores; [zlib] and [json] are external: they are the fields of a
    [Codec]. *)
Class Codec (V : Type) : Type := {
  encode : V → bytes;               (* json.dumps *)
  decode : bytes → option V;        (* json.loads *)
  compress : bytes → bytes;         (* zlib.compress *)
  decompress : bytes → option bytes; (* zlib.decompress *)
  is_None : V → bool                (* value is None *)
}.

Section methods.
Context {V : Type} `{Codec V}.

Definition _decompress (data : pyval) : py bytes :=
  match data with
  | PStr b => match decompress b with
              | Some d => ret d
              | None => raise CodecError
              end
  | PInt _ => raise TypeError
  end.

Definition _compress (data : bytes) : py bytes := ret (compress data).
Definition _encode (data : V) : py bytes := ret (encode data).
Definition _decode (data : bytes) : py V :=
  match decode data with
  | Some v => ret v
  | None => raise CodecError
  end.

Definition __getitem__ (k : key) : py V :=
  let! v := (match k with
             | StrKey s => _strget s
             | IntKey i => let! b := _intget i in ret (PStr b)
             | OtherKey => raise TypeError
             end) in
  let! d := _decompress v in
  _decode d.

Definition __setitem__ (k : key) (value : V) : py unit :=
  if is_None value then raise AssertionError else
  let! e := _encode value in
  let! v := _compress e in
  match k with
  | StrKey s => _strset s v
  | IntKey i => _intset i v
  | OtherKey => raise TypeError
  end.

Definition __delitem__ (k : key) : py unit :=
  match k with
  | StrKey s => _strdel s
  | IntKey i => _intdel i
  | OtherKey => raise TypeError
  end.

Definition get (k : key) (default : V) : py V :=
  except_KeyError (__getitem__ k) (ret default).

Definition __contains__ (k : key) : py bool :=
  except_KeyError
    (let! v := __getitem__ k in
     if negb (is_None v) then ret true else ret false)
    (ret false).

(** A caller's history: a finite sequence of writes, deletions and resets,
    run on the empty namespace.  A call that raises leaves the store as the
    call left it, and the history goes on. *)
Inductive op : Type :=
  | SetItem (k : key) (value : V)
  | DelItem (k : key)
  | Kill.

Definition apply_op (n : netnode) (o : op) : netnode :=
  match o with
  | SetItem k value => (__setitem__ k value n).2
  | DelItem k => (__delitem__ k n).2
  | Kill => (kill n).2
  end.

Definition after (history : list op) : netnode :=
  foldl apply_op empty_netnode history.
End methods.
Arguments op V : clear implicits.

(** ** The enumerations that read values *)

(** [for k in self.iterkeys(): body k], with the results of the body
    collected in a list.  The generator is suspended at each [yield]: the
    body runs on the key just yielded, and only then does the generator ask
    the store for the next key.  An exception of the body ends the loop. *)
Fixpoint for_sup {A} (body : Z → py A) (tag : ascii) (fuel : nat) (i : Z)
  : py (option (list A)) :=
  match fuel with
  | O => ret None
  | S fuel' =>
      if decide (i ≠ BADNODE)
      then
        let! a := body i in
        let! j := supnxt i tag in
        let! rest := for_sup body tag fuel' j in
        ret (cons a <$> rest)
      else ret (Some [])
  end.

Fixpoint for_hash {A} (body : string → py A) (tag : ascii) (fuel : nat)
    (i : option string) : py (option (list A)) :=
  match fuel with
  | O => ret None
  | S fuel' =>
      match i with
      | Some s =>
          let! a := body s in
          let! j := hashnxt s tag in
          let! rest := for_hash body tag fuel' j in
          ret (cons a <$> rest)
      | None => ret (Some [])
      end
  end.

Definition for_iterkeys {A} (body : key → py A) (fuel : nat) : py (option (list A)) :=
  let! i := sup1st stag in
  let! small_ints := for_sup (λ i, body (IntKey i)) stag fuel i in
  let! i := sup1st INT_KEYS_TAG in
  let! big_ints := for_sup (λ i, body (IntKey i)) INT_KEYS_TAG fuel i in
  let! i := hash1st htag in
  let! small_strs := for_hash (λ s, body (StrKey s)) htag fuel i in
  let! i := hash1st STR_KEYS_TAG in
  let! big_strs := for_hash (λ s, body (StrKey s)) STR_KEYS_TAG fuel i in
  ret (a ← small_ints; b ← big_ints; c ← small_strs; d ← big_strs;
       Some (a ++ b ++ c ++ d)).

Section reading_enumerations.
Context {V : Type} `{Codec V}.

Definition itervalues (fuel : nat) : py (option (list V)) :=
  for_iterkeys (λ k, __getitem__ k) fuel.

Definition values (fuel : nat) : py (option (list V)) := itervalues fuel.

Definition iteritems (fuel : nat) : py (option (list (key * V))) :=
  for_iterkeys (λ k, let! v := __getitem__ k in ret (k, v)) fuel.

Definition items (fuel : nat) : py (option (list (key * V))) := iteritems fuel.

(** What reading [k] gives in the store [n]. *)
Definition read (n : netnode) (k : key) : outcome V := (__getitem__ k n).1.
End reading_enumerations.

(** The results of [f] on the elements of a list, in order, up to the first
    exception. *)
Fixpoint each {K A} (f : K → outcome A) (l : list K) : outcome (list A) :=
  match l with
  | [] => Return []
  | k :: l' =>
      match f k with
      | Return a =>
          match each f l' with
          | Return r => Return (a :: r)
          | Raise e => Raise e
          end
      | Raise e => Raise e
      end
  end.

(** What a completed enumeration returns: the list, or the exception. *)
Definition enumerated {A} (o : outcome (list A)) : outcome (option (list A)) :=
  match o with
  | Return l => Return (Some l)
  | Raise e => Raise e
  end.

(** No integer key has both a direct slot and a blob. *)
Definition one_int_placement (n : netnode) : Prop :=
  ∀ i, sups n !! (stag, i) = None ∨ sups n !! (INT_KEYS_TAG, i) = None.

(** A codec to run the methods with: the encoding is the value behind a
    one-byte marker, and compression only adds a one-byte header. *)
#[export] Instance plain_codec : Codec (option bytes) := {|
  encode v := match v with
              | None => [Byte.x6e]
              | Some b => Byte.x73 :: b
              end;
  decode d := match d with
              | [Byte.x6e] => Some None
              | Byte.x73 :: b => Some (Some b)
              | _ => None
              end;
  compress d := Byte.x78 :: d;
  decompress d := match d with
                  | Byte.x78 :: r => Some r
                  | _ => None
                  end;
  is_None v := match v with None => true | Some _ => false end
|}.

(** What the codec of the class guarantees: decoding undoes encoding, and the
    output of [zlib.compress] is never empty. *)
Class CodecLaws (V : Type) `{Codec V} : Prop := {
  decompress_compress d : decompress (compress d) = Some d;
  decode_encode v : decode (encode v) = Some v;
  compress_nonempty d : compress d ≠ []
}.

(** A value whose payload is above the threshold, and one below it. *)
Definition large_value : option bytes := Some (repeat Byte.x00 1100).
Definition small_value : option bytes := Some [Byte.x2a].

(** A store with a forwarding record for ["name"] and no blob behind it. *)
Definition dangling_store : netnode :=
  mk_netnode ∅ {[ (STR_TO_INT_MAP_TAG, "name"%string) := PInt 7 ]}.

(** A store in which the integer key 3 has a blob and a direct slot. *)
Definition doubled_store : netnode :=
  mk_netnode {[ (INT_KEYS_TAG, 3) := compress (encode small_value);
                (stag, 3) := compress (encode large_value) ]} ∅.

(** The store after writing a large value under the integer key 3 and a
    small one under ["name"]. *)
Definition two_key_store : netnode :=
  after [SetItem (IntKey 3) large_value; SetItem (StrKey "name") small_value].

(** A store in which the direct slot of ["name"] holds the empty string. *)
Definition empty_slot_store : netnode :=
  mk_netnode ∅ {[ (htag, "name"%string) := PStr [] ]}.

(** ** What the tours yield *)

(** An integer tour stops at the first index that is the sentinel. *)
Fixpoint before_sentinel (l : list Z) : list Z :=
  match l with
  | [] => []
  | i :: l' => if decide (i ≠ BADNODE) then i :: before_sentinel l' else []
  end.

Definition all_keys (n : netnode) : list key :=
  (IntKey <$> before_sentinel (Zkeys (sups n) stag)) ++
  (IntKey <$> before_sentinel (Zkeys (sups n) INT_KEYS_TAG)) ++
  (StrKey <$> Skeys (hashes n) htag) ++
  (StrKey <$> Skeys (hashes n) STR_KEYS_TAG).

(** [keys()] returns [l]: the loops complete, whatever the fuel above some
    bound, and the list built is [l]. *)
Definition keys_result (n : netnode) (l : list key) : Prop :=
  ∃ fuel0, ∀ fuel, (fuel0 ≤ fuel)%nat → keys fuel n = (Return (Some l), n).

(** How many times a key occurs in a list of keys. *)
Definition occurrences {A} `{EqDecision A} (x : A) (l : list A) : nat :=
  length (filter (λ y, y = x) l).

(** ** Placements of a key *)

(** The direct slot of a key, and its blob placement: the blob of an integer
    key; for a string key the forwarding record, with the blob it points to
    ([Some None] is a forwarding record without its blob). *)
Definition direct_slot (n : netnode) (k : key) : option pyval :=
  match k with
  | IntKey i => PStr <$> sups n !! (stag, i)
  | StrKey s => hashes n !! (htag, s)
  | OtherKey => None
  end.

Definition blob_placement (n : netnode) (k : key) : option (option bytes) :=
  match k with
  | IntKey i => Some <$> sups n !! (INT_KEYS_TAG, i)
  | StrKey s =>
      match hashes n !! (STR_TO_INT_MAP_TAG, s) with
      | Some (PInt j) => Some (sups n !! (STR_KEYS_TAG, j))
      | _ => None
      end
  | OtherKey => None
  end.

(** The forwarding space holds node indexes only: no forwarding record is a
    byte string. *)
Definition forwarding_typed (n : netnode) : Prop :=
  ∀ s b, hashes n !! (STR_TO_INT_MAP_TAG, s) ≠ Some (PStr b).

(** What holds of every store that only this class has written: forwarding
    records are node indexes, direct string slots hold a non-empty payload,
    and the string table tagged [STR_KEYS_TAG] is empty. *)
Definition class_invariant (n : netnode) : Prop :=
  forwarding_typed n
  ∧ (∀ s d, hashes n !! (htag, s) = Some d → truthy d = true)
  ∧ (∀ s, hashes n !! (STR_KEYS_TAG, s) = None).

(** The store after [_intdel] and after [_strdel] found something. *)
Definition int_cleared (key : Z) (n : netnode) : netnode :=
  mk_netnode (delete (stag, key) (delete (INT_KEYS_TAG, key) (sups n))) (hashes n).

Definition str_cleared (key : string) (n : netnode) : netnode :=
  match hashes n !! (STR_TO_INT_MAP_TAG, key) with
  | Some (PInt i) =>
      mk_netnode (delete (STR_KEYS_TAG, i) (sups n)) (delete (htag, key) (hashes n))
  | _ =>
      if from_option truthy false (hashes n !! (htag, key))
      then mk_netnode (sups n) (delete (htag, key) (hashes n))
      else n
  end.

(** ** The methods in closed form *)

Ltac tag_neq := let E := fresh in intros E; inversion E.

Ltac map_simpl :=
  repeat first
    [ rewrite lookup_insert_eq
    | rewrite lookup_delete_eq
    | rewrite lookup_insert_ne by tag_neq
    | rewrite lookup_delete_ne by tag_neq
    | rewrite lookup_empty ].

Ltac py_unfold :=
  unfold bind, ret, raise, except_KeyError, as_index,
    getblob, setblob, delblob, supval, supset, supdel,
    hashval, hashset, hashdel, suplast in *.

Lemma _intdel_eq key n :
  _intdel key n =
    if is_not_None (sups n !! (INT_KEYS_TAG, key)) || is_not_None (sups n !! (stag, key))
    then (Return (), int_cleared key n)
    else (Raise KeyError, n).
Proof.
  unfold _intdel, int_cleared. py_unfold.
  destruct (sups n !! (INT_KEYS_TAG, key)) as [b|] eqn:Eb; simpl; map_simpl;
    destruct (sups n !! (stag, key)) as [d|] eqn:Ed; simpl; try done.
  - rewrite (delete_id (delete _ _)); [done|]. by map_simpl.
  - by rewrite (delete_id (sups n) (INT_KEYS_TAG, key)).
Qed.

Lemma _intset_eq key value n :
  _intset key value n =
    (Return (),
     mk_netnode (<[(if len value >? BLOB_SIZE then INT_KEYS_TAG else stag, key) := value]>
                   (sups (int_cleared key n)))
                (hashes n)).
Proof.
  unfold _intset. unfold bind at 1. unfold except_KeyError. rewrite _intdel_eq.
  destruct (is_not_None _ || is_not_None _) eqn:E.
  - by destruct (len value >? BLOB_SIZE).
  - apply orb_false_elim in E as [E1 E2].
    destruct (sups n !! (INT_KEYS_TAG, key)) eqn:Eb; [done|].
    destruct (sups n !! (stag, key)) eqn:Ed; [done|].
    unfold int_cleared; simpl.
    rewrite (delete_id (sups n) (INT_KEYS_TAG, key)) by done.
    rewrite (delete_id (sups n) (stag, key)) by done.
    by destruct (len value >? BLOB_SIZE).
Qed.

Lemma _intget_eq key n :
  _intget key n =
    match sups n !! (INT_KEYS_TAG, key) with
    | Some b => (Return b, n)
    | None => match sups n !! (stag, key) with
              | Some b => (Return b, n)
              | None => (Raise KeyError, n)
              end
    end.
Proof.
  unfold _intget. py_unfold.
  destruct (sups n !! (INT_KEYS_TAG, key)); [done|].
  by destruct (sups n !! (stag, key)).
Qed.

Lemma _strdel_eq key n :
  _strdel key n =
    match hashes n !! (STR_TO_INT_MAP_TAG, key) with
    | Some (PStr _) => (Raise TypeError, n)
    | Some (PInt _) => (Return (), str_cleared key n)
    | None =>
        if from_option truthy false (hashes n !! (htag, key))
        then (Return (), str_cleared key n)
        else (Raise KeyError, n)
    end.
Proof.
  unfold _strdel, str_cleared. py_unfold.
  destruct (hashes n !! (STR_TO_INT_MAP_TAG, key)) as [[b|i]|] eqn:Ef; simpl;
    map_simpl; try done.
  by destruct (from_option truthy false (hashes n !! (htag, key))).
Qed.

Lemma _strset_eq key value n :
  (∀ b, hashes n !! (STR_TO_INT_MAP_TAG, key) ≠ Some (PStr b)) →
  _strset key value n =
    let n1 := str_cleared key n in
    if len value >? BLOB_SIZE
    then
      let intkey := next_free_slot (sups n1) STR_KEYS_TAG in
      (Return (),
       mk_netnode (<[(STR_KEYS_TAG, intkey) := value]> (sups n1))
                  (<[(STR_TO_INT_MAP_TAG, key) := PInt intkey]> (hashes n1)))
    else
      (Return (),
       mk_netnode (sups n1) (<[(htag, key) := PStr value]> (hashes n1))).
Proof.
  intros Hty. unfold _strset. unfold bind at 1. unfold except_KeyError.
  rewrite _strdel_eq. unfold str_cleared.
  destruct (hashes n !! (STR_TO_INT_MAP_TAG, key)) as [[b|i]|] eqn:Ef.
  - by destruct (Hty b).
  - by destruct (len value >? BLOB_SIZE).
  - destruct (from_option truthy false (hashes n !! (htag, key)));
      by destruct (len value >? BLOB_SIZE).
Qed.

Lemma _strset_ill_typed key value b n :
  hashes n !! (STR_TO_INT_MAP_TAG, key) = Some (PStr b) →
  _strset key value n = (Raise TypeError, n).
Proof.
  intros Hf. unfold _strset. unfold bind at 1. unfold except_KeyError.
  by rewrite _strdel_eq, Hf.
Qed.

Lemma _strget_eq key n :
  _strget key n =
    match hashes n !! (STR_TO_INT_MAP_TAG, key) with
    | Some (PInt i) =>
        match sups n !! (STR_KEYS_TAG, i) with
        | Some b => (Return (PStr b), n)
        | None => (Raise NetnodeCorruptError, n)
        end
    | Some (PStr _) => (Raise TypeError, n)
    | None =>
        match hashes n !! (htag, key) with
        | Some x => (Return x, n)
        | None => (Raise KeyError, n)
        end
    end.
Proof.
  unfold _strget. py_unfold.
  destruct (hashes n !! (STR_TO_INT_MAP_TAG, key)) as [[b|i]|]; simpl; try done.
  - by destruct (sups n !! (STR_KEYS_TAG, i)).
  - by destruct (hashes n !! (htag, key)).
Qed.

(** What [_strdel] leaves of a string key: the forwarding space is never
    written, the blob behind a forwarding record goes, and so does a direct
    slot that is truthy or that has a forwarding record next to it. *)
Lemma str_cleared_forwarding s s' n :
  hashes (str_cleared s n) !! (STR_TO_INT_MAP_TAG, s')
    = hashes n !! (STR_TO_INT_MAP_TAG, s').
Proof.
  unfold str_cleared.
  destruct (hashes n !! (STR_TO_INT_MAP_TAG, s)) as [[b|j]|];
    try destruct (from_option truthy false (hashes n !! (htag, s)));
    simpl; by map_simpl.
Qed.

Lemma str_cleared_blob s j n :
  hashes n !! (STR_TO_INT_MAP_TAG, s) = Some (PInt j) →
  sups (str_cleared s n) !! (STR_KEYS_TAG, j) = None.
Proof. intros Hf. unfold str_cleared. rewrite Hf. simpl. by map_simpl. Qed.

Lemma str_cleared_direct_forwarded s j n :
  hashes n !! (STR_TO_INT_MAP_TAG, s) = Some (PInt j) →
  hashes (str_cleared s n) !! (htag, s) = None.
Proof. intros Hf. unfold str_cleared. rewrite Hf. simpl. by map_simpl. Qed.

Lemma str_cleared_direct_truthy s d n :
  hashes n !! (htag, s) = Some d → truthy d = true →
  hashes (str_cleared s n) !! (htag, s) = None.
Proof.
  intros Hd Ht. unfold str_cleared. rewrite Hd. simpl. rewrite Ht.
  destruct (hashes n !! (STR_TO_INT_MAP_TAG, s)) as [[b|j]|]; simpl; by map_simpl.
Qed.

Lemma str_cleared_other_tag s s' tag n :
  tag ≠ htag →
  hashes (str_cleared s n) !! (tag, s') = hashes n !! (tag, s').
Proof.
  intros Ht. unfold str_cleared.
  destruct (hashes n !! (STR_TO_INT_MAP_TAG, s)) as [[b|j]|];
    try destruct (from_option truthy false (hashes n !! (htag, s)));
    simpl; try done; rewrite lookup_delete_ne; by try intros [= ?].
Qed.

(** ** Enumeration of a space *)

Section tagged_keys.
Context {K V : Type} `{Countable K}.
Context (R : relation K) `{∀ x y, Decision (R x y)}.
Implicit Types (m : gmap (ascii * K) V) (tag : ascii) (k : K).

Lemma elem_of_tagged_keys m tag k :
  k ∈ tagged_keys R m tag ↔ is_Some (m !! (tag, k)).
Proof.
  unfold tagged_keys. rewrite merge_sort_Permutation, list_elem_of_fmap.
  split.
  - intros [[t k'] [-> [Ht Hin]%list_elem_of_filter]]. simpl in *. subst t.
    by apply elem_of_dom, elem_of_elements.
  - intros Hk. exists (tag, k). split; [done|].
    apply list_elem_of_filter. split; [done|].
    by apply elem_of_elements, elem_of_dom.
Qed.

Lemma NoDup_tagged_keys m tag : NoDup (tagged_keys R m tag).
Proof.
  unfold tagged_keys. rewrite merge_sort_Permutation.
  apply NoDup_fmap_2_strong.
  - intros [t1 k1] [t2 k2] [Ht1 _]%list_elem_of_filter [Ht2 _]%list_elem_of_filter.
    simpl in *. congruence.
  - apply NoDup_filter, NoDup_elements.
Qed.

Lemma length_tagged_keys m tag : (length (tagged_keys R m tag) ≤ size m)%nat.
Proof.
  unfold tagged_keys. rewrite merge_sort_Permutation, length_fmap.
  etrans; [apply length_filter|]. by rewrite <-size_dom.
Qed.

Lemma tagged_keys_empty tag : tagged_keys R (∅ : gmap (ascii * K) V) tag = [].
Proof.
  apply length_zero_iff_nil.
  pose proof (length_tagged_keys ∅ tag) as Hl. rewrite map_size_empty in Hl. lia.
Qed.
End tagged_keys.

Lemma next_after_app {K} `{EqDecision K} (i : K) pre post :
  i ∉ pre → next_after i (pre ++ i :: post) = head post.
Proof.
  induction pre as [|k pre IH]; simpl; intros Hi.
  - by rewrite decide_True.
  - apply not_elem_of_cons in Hi as [Hne Hi].
    rewrite decide_False by done. by apply IH.
Qed.

Lemma tour_sup_run tag n rest : ∀ pre fuel,
  Zkeys (sups n) tag = pre ++ rest →
  (length rest < fuel)%nat →
  tour_sup tag fuel (default BADNODE (head rest)) n
    = (Return (Some (before_sentinel rest)), n).
Proof.
  induction rest as [|i rest IH]; intros pre fuel Hk Hf;
    (destruct fuel as [|fuel]; [simpl in Hf; lia|]); simpl.
  - done.
  - destruct (decide (i ≠ BADNODE)) as [Hi|Hi]; [|done].
    unfold bind at 1. unfold supnxt. rewrite Hk, next_after_app.
    + unfold bind. rewrite (IH (pre ++ [i]) fuel); [done| |simpl in Hf; lia].
      by rewrite <-app_assoc.
    + pose proof (NoDup_tagged_keys Z.le (sups n) tag) as Hnd.
      fold (Zkeys (sups n) tag) in Hnd. rewrite Hk in Hnd.
      apply NoDup_app in Hnd as (_ & Hnd & _). intros Hin.
      apply (Hnd i Hin). by left.
Qed.

Lemma tour_hash_run tag n rest : ∀ pre fuel,
  Skeys (hashes n) tag = pre ++ rest →
  (length rest < fuel)%nat →
  tour_hash tag fuel (head rest) n = (Return (Some rest), n).
Proof.
  induction rest as [|i rest IH]; intros pre fuel Hk Hf;
    (destruct fuel as [|fuel]; [simpl in Hf; lia|]); simpl; [done|].
  unfold bind at 1. unfold hashnxt. rewrite Hk, next_after_app.
  - unfold bind. rewrite (IH (pre ++ [i]) fuel); [done| |simpl in Hf; lia].
    by rewrite <-app_assoc.
  - pose proof (NoDup_tagged_keys strle (hashes n) tag) as Hnd.
    fold (Skeys (hashes n) tag) in Hnd. rewrite Hk in Hnd.
    apply NoDup_app in Hnd as (_ & Hnd & _). intros Hin.
    apply (Hnd i Hin). by left.
Qed.

(** The loops of [iterkeys] end: with more fuel than the store has slots,
    [keys] returns the four tours one after the other. *)
Lemma keys_enough_fuel n fuel :
  (size (sups n) + size (hashes n) < fuel)%nat →
  keys fuel n = (Return (Some (all_keys n)), n).
Proof.
  intros Hf. unfold keys, iterkeys, all_keys.
  pose proof (length_tagged_keys Z.le (sups n) stag) as H1.
  pose proof (length_tagged_keys Z.le (sups n) INT_KEYS_TAG) as H2.
  pose proof (length_tagged_keys strle (hashes n) htag) as H3.
  pose proof (length_tagged_keys strle (hashes n) STR_KEYS_TAG) as H4.
  unfold bind, sup1st, hash1st.
  rewrite (tour_sup_run stag n _ []) by (done || (fold (Zkeys (sups n) stag) in H1; lia)).
  rewrite (tour_sup_run INT_KEYS_TAG n _ [])
    by (done || (fold (Zkeys (sups n) INT_KEYS_TAG) in H2; lia)).
  rewrite (tour_hash_run htag n _ [])
    by (done || (fold (Skeys (hashes n) htag) in H3; lia)).
  rewrite (tour_hash_run STR_KEYS_TAG n _ [])
    by (done || (fold (Skeys (hashes n) STR_KEYS_TAG) in H4; lia)).
  done.
Qed.

Lemma forwarding_typed_empty : forwarding_typed empty_netnode.
Proof. intros s b. unfold empty_netnode; simpl. by rewrite lookup_empty. Qed.

Lemma plain_codec_laws : CodecLaws (option bytes).
Proof.
  split.
  - done.
  - by intros [b|].
  - done.
Qed.

Lemma keys_result_all_keys n : keys_result n (all_keys n).
Proof.
  exists (S (size (sups n) + size (hashes n))). intros fuel Hf.
  apply keys_enough_fuel. lia.
Qed.

Lemma keys_result_unique n l : keys_result n l → l = all_keys n.
Proof.
  intros [f1 H1]. destruct (keys_result_all_keys n) as [f2 H2].
  specialize (H1 (f1 `max` f2)%nat ltac:(lia)).
  specialize (H2 (f1 `max` f2)%nat ltac:(lia)).
  rewrite H1 in H2. by injection H2 as ->.
Qed.

Lemma elem_of_all_keys_StrKey n s :
  StrKey s ∈ all_keys n ↔
    is_Some (hashes n !! (htag, s)) ∨ is_Some (hashes n !! (STR_KEYS_TAG, s)).
Proof.
  unfold all_keys, Skeys. rewrite !elem_of_app, !list_elem_of_fmap.
  rewrite <-!(elem_of_tagged_keys strle). split.
  - intros [(i & [=] & _)|[(i & [=] & _)|[(s' & [= <-] & Hs)|(s' & [= <-] & Hs)]]];
      [by left|by right].
  - intros [Hs|Hs]; right; right; [left|right]; by exists s.
Qed.

Lemma elem_of_all_keys_IntKey n i :
  IntKey i ∈ all_keys n ↔
    i ∈ before_sentinel (Zkeys (sups n) stag)
    ∨ i ∈ before_sentinel (Zkeys (sups n) INT_KEYS_TAG).
Proof.
  unfold all_keys. rewrite !elem_of_app, !list_elem_of_fmap. split.
  - intros [(i' & [= <-] & Hi)|[(i' & [= <-] & Hi)|[(s' & [=] & _)|(s' & [=] & _)]]];
      [by left|by right].
  - intros [Hi|Hi]; [left|right; left]; by exists i.
Qed.

Lemma occurrences_app {A} `{EqDecision A} (x : A) l1 l2 :
  occurrences x (l1 ++ l2) = (occurrences x l1 + occurrences x l2)%nat.
Proof. unfold occurrences. by rewrite filter_app, length_app. Qed.

Lemma occurrences_not_elem_of {A} `{EqDecision A} (x : A) l :
  x ∉ l → occurrences x l = 0%nat.
Proof.
  unfold occurrences. induction l as [|y l IH]; [done|].
  intros [Hne Hl]%not_elem_of_cons. rewrite filter_cons_False by done. by apply IH.
Qed.

Lemma occurrences_NoDup {A} `{EqDecision A} (x : A) l :
  NoDup l → x ∈ l → occurrences x l = 1%nat.
Proof.
  induction 1 as [|y l Hy Hnd IH]; [by intros ?%elem_of_nil|].
  intros [->|Hx]%elem_of_cons; unfold occurrences.
  - rewrite filter_cons_True by done. simpl.
    by rewrite (occurrences_not_elem_of y l Hy : length (filter _ l) = 0%nat).
  - rewrite filter_cons_False by (intros ->; done). by apply IH.
Qed.

Lemma Zkeys_sorted m tag : StronglySorted Z.le (Zkeys m tag).
Proof. apply (StronglySorted_merge_sort Z.le). Qed.

Lemma elem_of_before_sentinel l i :
  i ∈ before_sentinel l → i ∈ l.
Proof.
  induction l as [|a l IH]; simpl; [done|].
  destruct (decide (a ≠ BADNODE)); [|by intros ?%elem_of_nil].
  intros [->|Hi]%elem_of_cons; [by left|right; by apply IH].
Qed.

Lemma NoDup_before_sentinel l : NoDup l → NoDup (before_sentinel l).
Proof.
  induction 1 as [|a l Ha Hnd IH]; simpl; [constructor|].
  destruct (decide (a ≠ BADNODE)); [|constructor].
  constructor; [|done]. intros Hin. by apply Ha, elem_of_before_sentinel.
Qed.

(** An index below the sentinel is reached by the tour of its space. *)
Lemma before_sentinel_reaches l i :
  StronglySorted Z.le l → i ∈ l → i < BADNODE → i ∈ before_sentinel l.
Proof.
  induction 1 as [|a l Hs IH Hall]; simpl; [done|]. intros Hin Hi.
  destruct (decide (a ≠ BADNODE)) as [Ha|Ha].
  - apply elem_of_cons in Hin as [->|Hin]; [by left|right; by apply IH].
  - apply dec_stable in Ha. subst a.
    apply elem_of_cons in Hin as [->|Hin]; [lia|].
    rewrite Forall_forall in Hall. specialize (Hall i Hin). lia.
Qed.

(** ** Reading *)

Section reading.
Context {V : Type} `{Codec V}.

(** C5. When the forwarding record of a string key is present and the blob
    it points to is absent, reading the key raises [NetnodeCorruptError]
    (and so not [KeyError]); the store is left as it was. *)
Theorem getitem_dangling_forwarding_corrupt n s j :
  hashes n !! (STR_TO_INT_MAP_TAG, s) = Some (PInt j) →
  sups n !! (STR_KEYS_TAG, j) = None →
  __getitem__ (StrKey s) n = (Raise NetnodeCorruptError, n).
Proof.
  intros Hf Hb. unfold __getitem__. unfold bind at 1.
  by rewrite _strget_eq, Hf, Hb.
Qed.

(** C10. When a key has both its blob placement and a direct slot, reading
    it answers from the blob placement: the decoded blob, or
    [NetnodeCorruptError] when a forwarding record has no blob.  The answer
    does not depend on the content [d] of the direct slot. *)
Theorem getitem_prefers_blob_placement n k r d :
  blob_placement n k = Some r →
  direct_slot n k = Some d →
  __getitem__ k n =
    match r with
    | Some b => (let! x := _decompress (PStr b) in _decode x) n
    | None => (Raise NetnodeCorruptError, n)
    end.
Proof.
  intros Hb Hd. unfold __getitem__. destruct k as [i|s|]; simpl in *; [| |done].
  - destruct (sups n !! (INT_KEYS_TAG, i)) as [b|] eqn:Eb; [|done].
    simpl in Hb. injection Hb as <-.
    unfold bind at 1. unfold bind at 1. by rewrite _intget_eq, Eb.
  - destruct (hashes n !! (STR_TO_INT_MAP_TAG, s)) as [[?|j]|] eqn:Ef; try done.
    injection Hb as <-. unfold bind at 1. rewrite _strget_eq, Ef.
    by destruct (sups n !! (STR_KEYS_TAG, j)).
Qed.

(** C6. [get] returns what [__getitem__] returns, returns the default when
    [__getitem__] raises [KeyError], and raises every other exception of
    [__getitem__] unchanged; [__contains__] answers whether the value read
    is not [None], answers [False] on [KeyError], and raises every other
    exception unchanged. *)
Theorem get_contains_convert_only_KeyError n k default :
  get k default n =
    match __getitem__ k n with
    | (Return v, n') => (Return v, n')
    | (Raise KeyError, n') => (Return default, n')
    | (Raise e, n') => (Raise e, n')
    end
  ∧ __contains__ k n =
    match __getitem__ k n with
    | (Return v, n') => (Return (negb (is_None v)), n')
    | (Raise KeyError, n') => (Return false, n')
    | (Raise e, n') => (Raise e, n')
    end.
Proof.
  unfold get, __contains__, except_KeyError. unfold bind at 1.
  destruct (__getitem__ k n) as [[v|e] n']; split; try by destruct e.
  all: by destruct (is_None v).
Qed.

(** C9. [kill] leaves the empty namespace: [keys] is the empty list and
    reading any integer or string key raises [KeyError]. *)
Theorem kill_empties_namespace n :
  ∃ n', kill n = (Return (), n')
    ∧ (∀ fuel, keys (S fuel) n' = (Return (Some []), n'))
    ∧ (∀ i, __getitem__ (IntKey i) n' = (Raise KeyError, n'))
    ∧ (∀ s, __getitem__ (StrKey s) n' = (Raise KeyError, n')).
Proof.
  exists empty_netnode. split; [done|]. split; [|split].
  - intros fuel. rewrite keys_enough_fuel.
    + unfold all_keys, Zkeys, Skeys; simpl. by rewrite !tagged_keys_empty.
    + simpl. rewrite !map_size_empty. lia.
  - intros i. unfold __getitem__. do 2 unfold bind at 1.
    rewrite _intget_eq. simpl. by rewrite !lookup_empty.
  - intros s. unfold __getitem__. unfold bind at 1.
    rewrite _strget_eq. simpl. by rewrite !lookup_empty.
Qed.
End reading.

(** ** Writing *)

Section writing.
Context {V : Type} `{Codec V}.

Lemma setitem_int n i v :
  is_None v = false →
  __setitem__ (IntKey i) v n = _intset i (compress (encode v)) n.
Proof. intros Hv. unfold __setitem__. by rewrite Hv. Qed.

Lemma setitem_str n s v :
  is_None v = false →
  __setitem__ (StrKey s) v n = _strset s (compress (encode v)) n.
Proof. intros Hv. unfold __setitem__. by rewrite Hv. Qed.

Lemma truthy_large c : len c > BLOB_SIZE → truthy (PStr c) = true.
Proof. destruct c; [unfold len, BLOB_SIZE; simpl; lia|done]. Qed.

(** C7. Writing a value under an integer or a string key succeeds in every
    store whose forwarding space holds node indexes; and whenever the write
    succeeds, the compressed payload is in the direct slot of the key
    exactly when its length is at most [BLOB_SIZE] = 1024, and in the blob
    placement of the key exactly when its length is above it. *)
Theorem setitem_placement_by_size n k v :
  is_None v = false →
  k ≠ OtherKey →
  let c := compress (encode v) in
  (forwarding_typed n → ∃ n', __setitem__ k v n = (Return (), n'))
  ∧ (∀ n', __setitem__ k v n = (Return (), n') →
       (direct_slot n' k = Some (PStr c) ↔ len c ≤ BLOB_SIZE)
       ∧ (blob_placement n' k = Some (Some c) ↔ len c > BLOB_SIZE)).
Proof.
  intros Hv Hk c. destruct k as [i|s|]; [| |done].
  - rewrite setitem_int by done. fold c. rewrite _intset_eq.
    split; [by eexists|]. intros n' [= <-]. unfold int_cleared; simpl.
    destruct (Z.gtb_spec (len c) BLOB_SIZE) as [Hc|Hc]; map_simpl; simpl.
    + split; (split; [done || lia|]); [lia|done].
    + split; (split; [done || lia|]); [done|lia].
  - rewrite setitem_str by done. fold c. split.
    { intros Hty. rewrite _strset_eq by apply Hty. simpl.
      destruct (len c >? BLOB_SIZE); by eexists. }
    intros n'.
    destruct (hashes n !! (STR_TO_INT_MAP_TAG, s)) as [[b|j]|] eqn:Ef.
    { by rewrite (_strset_ill_typed _ _ b). }
    all: rewrite _strset_eq by (intros b; by rewrite Ef); simpl.
    all: destruct (Z.gtb_spec (len c) BLOB_SIZE) as [Hc|Hc]; intros [= <-];
      simpl; map_simpl; rewrite ?str_cleared_forwarding, ?Ef;
      rewrite ?(str_cleared_blob _ _ _ Ef).
    + rewrite (str_cleared_direct_forwarded _ _ _ Ef).
      split; (split; [done || lia|]); [lia|done].
    + split; (split; [done || lia|]); [done|lia].
    + split; [split; [|lia] | split; [lia|done]].
      intros Hd. exfalso. revert Hd. unfold str_cleared. rewrite Ef.
      destruct (hashes n !! (htag, s)) as [d|] eqn:Ed; simpl; [|by rewrite Ed].
      destruct (truthy d) eqn:Et; simpl; map_simpl; [done|].
      rewrite Ed. intros [= ->]. by rewrite truthy_large in Et by lia.
    + split; (split; [done || lia|]); [done|lia].
Qed.

(** C1, on the code as it is.  Writing a small value under a string key
    that holds a large one leaves the forwarding record behind without its
    blob ([_strdel] calls [hashdel] on the default table): reading the key
    back raises [NetnodeCorruptError] instead of returning the value. *)
Theorem setitem_small_over_large_unreadable n s big small :
  is_None big = false →
  is_None small = false →
  len (compress (encode big)) > BLOB_SIZE →
  len (compress (encode small)) ≤ BLOB_SIZE →
  forwarding_typed n →
  ∃ n', (__setitem__ (StrKey s) big ;; __setitem__ (StrKey s) small) n
          = (Return (), n')
    ∧ __getitem__ (StrKey s) n' = (Raise NetnodeCorruptError, n').
Proof.
  intros Hb Hs Hlb Hls Hty. unfold bind at 1.
  rewrite setitem_str, _strset_eq by (done || apply Hty). simpl.
  destruct (Z.gtb_spec (len (compress (encode big))) BLOB_SIZE); [|lia].
  rewrite setitem_str, _strset_eq by (done || (intros b; simpl; by map_simpl)).
  simpl.
  destruct (Z.gtb_spec (len (compress (encode small))) BLOB_SIZE); [lia|].
  eexists; split; [done|].
  set (j := next_free_slot _ _).
  set (n2 := mk_netnode (<[(STR_KEYS_TAG, j):=_]> _) (<[(STR_TO_INT_MAP_TAG, s):=_]> _)).
  assert (hashes n2 !! (STR_TO_INT_MAP_TAG, s) = Some (PInt j)) as Hf
    by (simpl; by map_simpl).
  unfold __getitem__. unfold bind at 1. rewrite _strget_eq. simpl. map_simpl.
  by rewrite str_cleared_forwarding, Hf, (str_cleared_blob _ _ _ Hf).
Qed.
End writing.

(** ** String keys across the size threshold *)

Section string_keys.
Context {V : Type} `{Codec V} `{!CodecLaws V}.

Lemma strset_large n s c :
  (∀ b, hashes n !! (STR_TO_INT_MAP_TAG, s) ≠ Some (PStr b)) →
  len c > BLOB_SIZE →
  ∃ n' j, _strset s c n = (Return (), n')
    ∧ hashes n' !! (STR_TO_INT_MAP_TAG, s) = Some (PInt j)
    ∧ sups n' !! (STR_KEYS_TAG, j) = Some c
    ∧ hashes n' !! (htag, s) = hashes (str_cleared s n) !! (htag, s)
    ∧ (∀ s', hashes n' !! (STR_KEYS_TAG, s') = hashes n !! (STR_KEYS_TAG, s')).
Proof.
  intros Hty Hc. rewrite _strset_eq by done. simpl.
  destruct (Z.gtb_spec (len c) BLOB_SIZE); [|lia].
  eexists _, _. split; [done|]. simpl. map_simpl. repeat split; try done.
  intros s'. map_simpl. by apply str_cleared_other_tag.
Qed.

Lemma strset_small n s c :
  (∀ b, hashes n !! (STR_TO_INT_MAP_TAG, s) ≠ Some (PStr b)) →
  len c ≤ BLOB_SIZE →
  ∃ n', _strset s c n = (Return (), n')
    ∧ hashes n' !! (htag, s) = Some (PStr c)
    ∧ (∀ s', hashes n' !! (STR_TO_INT_MAP_TAG, s')
             = hashes n !! (STR_TO_INT_MAP_TAG, s'))
    ∧ (∀ j, hashes n !! (STR_TO_INT_MAP_TAG, s) = Some (PInt j) →
            sups n' !! (STR_KEYS_TAG, j) = None)
    ∧ (∀ s', hashes n' !! (STR_KEYS_TAG, s') = hashes n !! (STR_KEYS_TAG, s')).
Proof.
  intros Hty Hc. rewrite _strset_eq by done. simpl.
  destruct (Z.gtb_spec (len c) BLOB_SIZE); [lia|].
  eexists. split; [done|]. simpl. map_simpl. repeat split; try done.
  - intros s'. map_simpl. apply str_cleared_forwarding.
  - intros j. apply str_cleared_blob.
  - intros s'. map_simpl. by apply str_cleared_other_tag.
Qed.

Lemma getitem_StrKey_eq s n :
  __getitem__ (StrKey s) n =
    match _strget s n with
    | (Return v, n') => (let! d := _decompress v in _decode d) n'
    | (Raise e, n') => (Raise e, n')
    end.
Proof. done. Qed.

Lemma getitem_str_forwarded n s j v :
  hashes n !! (STR_TO_INT_MAP_TAG, s) = Some (PInt j) →
  sups n !! (STR_KEYS_TAG, j) = Some (compress (encode v)) →
  __getitem__ (StrKey s) n = (Return v, n).
Proof.
  intros Hf Hb. rewrite getitem_StrKey_eq, _strget_eq, Hf, Hb.
  unfold bind, _decompress, _decode.
  rewrite decompress_compress. unfold ret at 1. by rewrite decode_encode.
Qed.

Lemma getitem_str_dangling n s j :
  hashes n !! (STR_TO_INT_MAP_TAG, s) = Some (PInt j) →
  sups n !! (STR_KEYS_TAG, j) = None →
  __getitem__ (StrKey s) n = (Raise NetnodeCorruptError, n).
Proof. intros Hf Hb. by rewrite getitem_StrKey_eq, _strget_eq, Hf, Hb. Qed.

Lemma contains_raise k n e n' :
  __getitem__ k n = (Raise e, n') → e ≠ KeyError →
  __contains__ k n = (Raise e, n').
Proof.
  intros Hg He. unfold __contains__, except_KeyError. unfold bind at 1.
  rewrite Hg. by destruct e.
Qed.

Lemma truthy_compress d : truthy (PStr (compress d)) = true.
Proof.
  pose proof (compress_nonempty d). simpl. by destruct (compress d).
Qed.

Lemma str_cleared_direct s n :
  (∀ d, hashes n !! (htag, s) = Some d → truthy d = true) →
  hashes (str_cleared s n) !! (htag, s) = None.
Proof.
  intros Hd. destruct (hashes n !! (htag, s)) as [d|] eqn:Ed.
  - apply (str_cleared_direct_truthy s d); auto.
  - unfold str_cleared. rewrite Ed. simpl.
    destruct (hashes n !! (STR_TO_INT_MAP_TAG, s)) as [[b|j]|];
      simpl; by map_simpl.
Qed.

(** C3, on the code as it is.  Deleting a string key that holds a large
    value removes the blob and leaves the forwarding record: afterwards
    reading the key, and testing membership, raise [NetnodeCorruptError]
    instead of reporting the key as absent. *)
Theorem delitem_large_string_key_leaves_forwarding n s big :
  is_None big = false →
  len (compress (encode big)) > BLOB_SIZE →
  forwarding_typed n →
  ∃ n', (__setitem__ (StrKey s) big ;; __delitem__ (StrKey s)) n
          = (Return (), n')
    ∧ blob_placement n' (StrKey s) = Some None
    ∧ __getitem__ (StrKey s) n' = (Raise NetnodeCorruptError, n')
    ∧ __contains__ (StrKey s) n' = (Raise NetnodeCorruptError, n').
Proof.
  intros Hv Hc Hty.
  destruct (strset_large n s _ (Hty s) Hc) as (n1 & j & Hset & Hf & Hb & _).
  exists (str_cleared s n1). unfold bind at 1.
  rewrite setitem_str, Hset by done. simpl. rewrite _strdel_eq, Hf.
  assert (__getitem__ (StrKey s) (str_cleared s n1)
          = (Raise NetnodeCorruptError, str_cleared s n1)) as Hg.
  { apply (getitem_str_dangling _ _ j).
    - by rewrite str_cleared_forwarding.
    - by apply (str_cleared_blob s). }
  repeat split; [|done|by apply contains_raise].
  simpl. by rewrite str_cleared_forwarding, Hf, (str_cleared_blob s j).
Qed.

(** Overwriting a string key across the threshold, in a store that satisfies
    the invariant of the class. *)
Lemma string_key_overwrite n s small big :
  class_invariant n →
  is_None small = false →
  is_None big = false →
  len (compress (encode small)) ≤ BLOB_SIZE →
  len (compress (encode big)) > BLOB_SIZE →
  (∃ n', (__setitem__ (StrKey s) small ;; __setitem__ (StrKey s) big) n
           = (Return (), n')
     ∧ __getitem__ (StrKey s) n' = (Return big, n')
     ∧ ∃ l, keys_result n' l ∧ StrKey s ∉ l)
  ∧ (∃ n', (__setitem__ (StrKey s) big ;; __setitem__ (StrKey s) small) n
             = (Return (), n')
       ∧ __getitem__ (StrKey s) n' = (Raise NetnodeCorruptError, n')).
Proof.
  intros (Hty & Hdir & HN) Hvs Hvb Hcs Hcb. split.
  - destruct (strset_small n s _ (Hty s) Hcs) as (n1 & Hset1 & Hd1 & Hf1 & _ & HN1).
    destruct (strset_large n1 s (compress (encode big))) as
      (n2 & j & Hset2 & Hf2 & Hb2 & Hd2 & HN2); [|done|].
    { intros b. rewrite Hf1. apply Hty. }
    exists n2. unfold bind at 1. rewrite setitem_str, Hset1 by done.
    rewrite setitem_str, Hset2 by done. split; [done|].
    split; [by apply (getitem_str_forwarded _ _ j)|].
    exists (all_keys n2). split; [apply keys_result_all_keys|].
    rewrite elem_of_all_keys_StrKey, Hd2, HN2, HN1, HN.
    rewrite (str_cleared_direct_truthy s _ n1 Hd1 (truthy_compress _)).
    by intros [[? ?]|[? ?]].
  - destruct (strset_large n s _ (Hty s) Hcb) as (n1 & j & Hset1 & Hf1 & Hb1 & _).
    destruct (strset_small n1 s (compress (encode small))) as
      (n2 & Hset2 & _ & Hf2 & Hb2 & _); [|done|].
    { intros b. by rewrite Hf1. }
    exists n2. unfold bind at 1. rewrite setitem_str, Hset1 by done.
    rewrite setitem_str, Hset2 by done. split; [done|].
    apply (getitem_str_dangling _ _ j); [by rewrite Hf2|by apply Hb2].
Qed.

(** In a store that satisfies the invariant of the class, a string key given
    a large value reads back its value and [keys()] does not list it. *)
Lemma large_string_key_not_listed n s big :
  class_invariant n →
  is_None big = false →
  len (compress (encode big)) > BLOB_SIZE →
  ∃ n', __setitem__ (StrKey s) big n = (Return (), n')
    ∧ __getitem__ (StrKey s) n' = (Return big, n')
    ∧ ∃ l, keys_result n' l ∧ StrKey s ∉ l.
Proof.
  intros (Hty & Hdir & HN) Hv Hc.
  destruct (strset_large n s _ (Hty s) Hc) as (n1 & j & Hset & Hf & Hb & Hd & HN1).
  exists n1. rewrite setitem_str by done. split; [done|].
  split; [by apply (getitem_str_forwarded _ _ j)|].
  exists (all_keys n1). split; [apply keys_result_all_keys|].
  rewrite elem_of_all_keys_StrKey, Hd, HN1, HN.
  rewrite (str_cleared_direct s n (Hdir s)).
  by intros [[? ?]|[? ?]].
Qed.

(** X18. [_strdel] tests its direct slot for truthiness where [_intdel] and
    [_strget] test for [None]: in a store where the only placement of a
    string key is a direct slot holding an empty string (or 0), the key is
    present for [_strget] and deleting it raises [KeyError].  No store that
    the class builds is of this kind ([class_invariant]). *)
Lemma delitem_falsy_direct_slot n s d :
  hashes n !! (STR_TO_INT_MAP_TAG, s) = None →
  hashes n !! (htag, s) = Some d →
  truthy d = false →
  _strget s n = (Return d, n)
  ∧ __delitem__ (StrKey s) n = (Raise KeyError, n).
Proof.
  intros Hf Hd Ht. split.
  - by rewrite _strget_eq, Hf, Hd.
  - simpl. by rewrite _strdel_eq, Hf, Hd; simpl; rewrite Ht.
Qed.
End string_keys.

(** ** The stores the class builds *)

Lemma class_invariant_empty : class_invariant empty_netnode.
Proof.
  split; [apply forwarding_typed_empty|].
  split; intros s; [intros d|]; unfold empty_netnode; simpl; by rewrite lookup_empty.
Qed.

Lemma str_cleared_lookup_Some s n k x :
  hashes (str_cleared s n) !! k = Some x → hashes n !! k = Some x.
Proof.
  unfold str_cleared.
  destruct (hashes n !! (STR_TO_INT_MAP_TAG, s)) as [[b|j]|];
    try destruct (from_option truthy false (hashes n !! (htag, s)));
    simpl; try done; by intros [_ ?]%lookup_delete_Some.
Qed.

Lemma class_invariant_str_cleared s n :
  class_invariant n → class_invariant (str_cleared s n).
Proof.
  intros (Hty & Hdir & HN). split; [|split].
  - intros s' b Hs. by apply (Hty s' b), (str_cleared_lookup_Some s).
  - intros s' d Hs. by apply (Hdir s'), (str_cleared_lookup_Some s).
  - intros s'. by rewrite str_cleared_other_tag.
Qed.

(** [__delitem__] raises [KeyError] and leaves the store exactly when the key
    has no placement, in every store whose forwarding records are node
    indexes and whose direct string slots are truthy. *)
Lemma delitem_outcome n k :
  k ≠ OtherKey →
  forwarding_typed n →
  (∀ s d, hashes n !! (htag, s) = Some d → truthy d = true) →
  if decide (direct_slot n k = None ∧ blob_placement n k = None)
  then __delitem__ k n = (Raise KeyError, n)
  else ∃ n', __delitem__ k n = (Return (), n').
Proof.
  intros Hk Hty Hdir. destruct k as [i|s|]; [| |done].
  - simpl __delitem__. rewrite _intdel_eq.
    destruct (decide _) as [[Hd Hb]|Hdec].
    + simpl in Hd, Hb. apply fmap_None in Hd, Hb. by rewrite Hb, Hd.
    + destruct (sups n !! (INT_KEYS_TAG, i)) as [b|] eqn:Eb;
        destruct (sups n !! (stag, i)) as [d|] eqn:Ed; simpl; try (by eexists).
      destruct Hdec. simpl. by rewrite Eb, Ed.
  - simpl __delitem__. rewrite _strdel_eq.
    pose proof (Hty s) as Hs. pose proof (Hdir s) as Hd.
    destruct (decide _) as [[Hd' Hb]|Hdec].
    + simpl in Hd', Hb. rewrite Hd'. simpl.
      destruct (hashes n !! (STR_TO_INT_MAP_TAG, s)) as [[b|j]|] eqn:Ef;
        [by destruct (Hs b)|done|done].
    + destruct (hashes n !! (STR_TO_INT_MAP_TAG, s)) as [[b|j]|] eqn:Ef;
        [by destruct (Hs b)|by eexists|].
      destruct (hashes n !! (htag, s)) as [d|] eqn:Ed; simpl.
      * rewrite (Hd d) by done. by eexists.
      * destruct Hdec. simpl. by rewrite Ef, Ed.
Qed.

Section invariant.
Context {V : Type} `{Codec V} `{!CodecLaws V}.

Lemma class_invariant_strset s c n :
  class_invariant n → truthy (PStr c) = true →
  class_invariant (_strset s c n).2.
Proof.
  intros Hinv Hc. pose proof (class_invariant_str_cleared s n Hinv) as (Hty & Hdir & HN).
  rewrite _strset_eq by apply Hinv. simpl.
  destruct (len c >? BLOB_SIZE); simpl; (split; [|split]).
  - intros s' b. simpl. destruct (decide (s' = s)) as [->|Hne]; [by map_simpl|].
    rewrite lookup_insert_ne by congruence. apply Hty.
  - intros s' d. simpl. map_simpl. apply Hdir.
  - intros s'. simpl. by map_simpl.
  - intros s' b. simpl. map_simpl. apply Hty.
  - intros s' d. simpl. destruct (decide (s' = s)) as [->|Hne].
    + map_simpl. by intros [= <-].
    + rewrite lookup_insert_ne by congruence. apply Hdir.
  - intros s'. simpl. by map_simpl.
Qed.

(** Every method keeps the invariant, whatever it returns or raises. *)
Lemma class_invariant_setitem k v n :
  class_invariant n → class_invariant (__setitem__ k v n).2.
Proof.
  intros Hinv. destruct (is_None v) eqn:Hv.
  { unfold __setitem__. by rewrite Hv. }
  destruct k as [i|s|].
  - by rewrite setitem_int, _intset_eq.
  - rewrite setitem_str by done.
    apply class_invariant_strset; [done|]. apply truthy_compress.
  - unfold __setitem__. by rewrite Hv.
Qed.

Lemma class_invariant_delitem k n :
  class_invariant n → class_invariant (__delitem__ k n).2.
Proof.
  intros Hinv. destruct k as [i|s|]; simpl; [| |done].
  - rewrite _intdel_eq. by destruct (_ || _).
  - rewrite _strdel_eq.
    destruct (hashes n !! (STR_TO_INT_MAP_TAG, s)) as [[b|j]|];
      try destruct (from_option truthy false (hashes n !! (htag, s)));
      simpl; try done; by apply class_invariant_str_cleared.
Qed.

Lemma class_invariant_kill n : class_invariant (kill n).2.
Proof. apply class_invariant_empty. Qed.

(** So the invariant holds after every history. *)
Lemma class_invariant_after (history : list (op V)) :
  class_invariant (after history).
Proof.
  unfold after. induction history as [|o history IH] using rev_ind; simpl.
  - apply class_invariant_empty.
  - rewrite foldl_app.
    change (class_invariant (apply_op (foldl apply_op empty_netnode history) o)).
    destruct o as [k v|k|]; unfold apply_op.
    + exact (class_invariant_setitem k v _ IH).
    + exact (class_invariant_delitem k _ IH).
    + apply class_invariant_kill.
Qed.
End invariant.

(** ** After any history *)

Section histories.
Context {V : Type} `{Codec V} `{!CodecLaws V}.

(** C8. After any finite sequence of writes, deletions and resets, deleting
    an integer or a string key raises [KeyError] and leaves the store as it
    is when the key has no placement, and succeeds when it has one: a direct
    slot, an integer blob, or a forwarding record (with or without the blob
    it points to).  The two cases exclude each other, so [KeyError] is raised
    exactly when there is no placement. *)
Theorem delitem_KeyError_iff_no_placement (history : list (op V)) k :
  k ≠ OtherKey →
  let n := after history in
  (direct_slot n k = None ∧ blob_placement n k = None →
     __delitem__ k n = (Raise KeyError, n))
  ∧ (¬ (direct_slot n k = None ∧ blob_placement n k = None) →
       ∃ n', __delitem__ k n = (Return (), n')).
Proof.
  intros Hk n.
  pose proof (class_invariant_after history) as (Hty & Hdir & _). fold n in Hty, Hdir.
  pose proof (delitem_outcome n k Hk Hty Hdir) as Hout.
  split; intros Hp; by case_decide.
Qed.

(** C4, on the code as it is.  After any finite sequence of writes,
    deletions and resets, a string key given a large value is live (it reads
    back its value) and [keys()] does not list it: the fourth tour of
    [iterkeys] enumerates the table tagged [STR_KEYS_TAG], and the forwarding
    records are in the table tagged [STR_TO_INT_MAP_TAG]. *)
Theorem keys_omits_large_string_key (history : list (op V)) s big :
  is_None big = false →
  len (compress (encode big)) > BLOB_SIZE →
  ∃ n', __setitem__ (StrKey s) big (after history) = (Return (), n')
    ∧ __getitem__ (StrKey s) n' = (Return big, n')
    ∧ ∃ l, keys_result n' l ∧ StrKey s ∉ l.
Proof.
  intros Hv Hc. apply large_string_key_not_listed; [|done|done].
  apply class_invariant_after.
Qed.

(** C2, on the code as it is.  After any finite sequence of writes,
    deletions and resets: when a string key is given a small and then a
    large value, it reads back the large value but [keys()] does not list it
    (the fourth tour of [iterkeys] enumerates the table tagged
    [STR_KEYS_TAG], not the forwarding space); when it is given a large and
    then a small value, reading it raises [NetnodeCorruptError] ([_strdel]
    leaves the forwarding record behind). *)
Theorem overwrite_string_key_across_sizes (history : list (op V)) s small big :
  is_None small = false →
  is_None big = false →
  len (compress (encode small)) ≤ BLOB_SIZE →
  len (compress (encode big)) > BLOB_SIZE →
  let n := after history in
  (∃ n', (__setitem__ (StrKey s) small ;; __setitem__ (StrKey s) big) n
           = (Return (), n')
     ∧ __getitem__ (StrKey s) n' = (Return big, n')
     ∧ ∃ l, keys_result n' l ∧ StrKey s ∉ l)
  ∧ (∃ n', (__setitem__ (StrKey s) big ;; __setitem__ (StrKey s) small) n
             = (Return (), n')
       ∧ __getitem__ (StrKey s) n' = (Raise NetnodeCorruptError, n')).
Proof.
  intros Hvs Hvb Hcs Hcb n. apply string_key_overwrite; try done.
  apply class_invariant_after.
Qed.
End histories.

(** ** Integer keys, and string keys without a forwarding record *)

Section sound_paths.
Context {V : Type} `{Codec V} `{!CodecLaws V}.

Lemma getitem_IntKey_eq i n :
  __getitem__ (IntKey i) n =
    match _intget i n with
    | (Return b, n') => (let! d := _decompress (PStr b) in _decode d) n'
    | (Raise e, n') => (Raise e, n')
    end.
Proof.
  unfold __getitem__. do 2 unfold bind at 1. by destruct (_intget i n) as [[b|e] n'].
Qed.

(** Integer keys read back what was written, in every store and on both
    sides of the threshold. *)
Lemma int_key_round_trip n i v :
  is_None v = false →
  ∃ n', __setitem__ (IntKey i) v n = (Return (), n')
    ∧ __getitem__ (IntKey i) n' = (Return v, n').
Proof.
  intros Hv. rewrite setitem_int, _intset_eq by done. eexists; split; [done|].
  rewrite getitem_IntKey_eq, _intget_eq. unfold int_cleared; simpl.
  destruct (len (compress (encode v)) >? BLOB_SIZE); map_simpl;
    unfold bind, _decompress, _decode; rewrite decompress_compress;
    unfold ret at 1; by rewrite decode_encode.
Qed.

(** X8. String keys read back what was written when the value is large, or
    when the key has no forwarding record, in every store whose forwarding
    space holds node indexes. *)
Lemma str_key_round_trip n s v :
  is_None v = false →
  forwarding_typed n →
  len (compress (encode v)) > BLOB_SIZE
    ∨ hashes n !! (STR_TO_INT_MAP_TAG, s) = None →
  ∃ n', __setitem__ (StrKey s) v n = (Return (), n')
    ∧ __getitem__ (StrKey s) n' = (Return v, n').
Proof.
  intros Hv Hty Hcase. rewrite setitem_str by done.
  destruct (Z.gtb_spec (len (compress (encode v))) BLOB_SIZE) as [Hc|Hc].
  - destruct (strset_large n s (compress (encode v)) (Hty s))
      as (n' & j & Hset & Hf & Hb & _); [lia|].
    exists n'. split; [done|]. by apply (getitem_str_forwarded _ _ j).
  - destruct Hcase as [?|Hf]; [lia|].
    destruct (strset_small n s _ (Hty s) Hc) as (n' & Hset & Hd & Hf' & _).
    exists n'. split; [done|].
    rewrite getitem_StrKey_eq, _strget_eq, Hf', Hf, Hd.
    unfold bind, _decompress, _decode. rewrite decompress_compress.
    unfold ret at 1. by rewrite decode_encode.
Qed.

(** Deleting an integer key removes both of its placements. *)
Lemma int_key_delete_complete n i v :
  is_None v = false →
  ∃ n', (__setitem__ (IntKey i) v ;; __delitem__ (IntKey i)) n = (Return (), n')
    ∧ direct_slot n' (IntKey i) = None
    ∧ blob_placement n' (IntKey i) = None
    ∧ __getitem__ (IntKey i) n' = (Raise KeyError, n')
    ∧ __contains__ (IntKey i) n' = (Return false, n').
Proof.
  intros Hv. unfold bind at 1. rewrite setitem_int, _intset_eq by done.
  simpl. rewrite _intdel_eq. simpl.
  assert (∀ m : gmap (ascii * Z) bytes,
    is_not_None (<[(if len (compress (encode v)) >? BLOB_SIZE
                    then INT_KEYS_TAG else stag, i):=compress (encode v)]> m
                 !! (INT_KEYS_TAG, i))
    || is_not_None (<[(if len (compress (encode v)) >? BLOB_SIZE
                       then INT_KEYS_TAG else stag, i):=compress (encode v)]> m
                    !! (stag, i)) = true) as ->.
  { intros m. destruct (len (compress (encode v)) >? BLOB_SIZE); map_simpl;
      [done|apply orb_true_r]. }
  eexists; split; [done|].
  assert (∀ n0, sups n0 !! (INT_KEYS_TAG, i) = None → sups n0 !! (stag, i) = None →
    __getitem__ (IntKey i) n0 = (Raise KeyError, n0)) as Hget.
  { intros n0 H1 H2. by rewrite getitem_IntKey_eq, _intget_eq, H1, H2. }
  unfold int_cleared; simpl. map_simpl. repeat split; try done.
  - apply Hget; simpl; by map_simpl.
  - unfold __contains__, except_KeyError. unfold bind at 1.
    rewrite Hget; [done| |]; simpl; by map_simpl.
Qed.
(** After a write, [keys()] lists an integer key exactly once. *)
Lemma int_key_listed_once n i v :
  is_None v = false →
  i < BADNODE →
  ∃ n', __setitem__ (IntKey i) v n = (Return (), n')
    ∧ ∃ l, keys_result n' l ∧ occurrences (IntKey i) l = 1%nat.
Proof.
  intros Hv Hi. rewrite setitem_int, _intset_eq by done.
  eexists; split; [done|]. eexists; split; [apply keys_result_all_keys|].
  set (c := compress (encode v)). unfold all_keys, int_cleared; simpl.
  set (m := <[_:=c]> _).
  assert (∀ tag, m !! (tag, i) = None →
    occurrences (IntKey i) (IntKey <$> before_sentinel (Zkeys m tag)) = 0%nat) as Hout.
  { intros tag Hm. apply occurrences_not_elem_of.
    intros (i' & [= <-] & Hin%elem_of_before_sentinel)%list_elem_of_fmap.
    apply (elem_of_tagged_keys Z.le) in Hin. rewrite Hm in Hin. by destruct Hin. }
  assert (∀ tag, m !! (tag, i) = Some c →
    occurrences (IntKey i) (IntKey <$> before_sentinel (Zkeys m tag)) = 1%nat) as Hin.
  { intros tag Hm. apply occurrences_NoDup.
    - apply NoDup_fmap_2_strong; [by intros ?? _ _ [=]|].
      apply NoDup_before_sentinel, (NoDup_tagged_keys Z.le).
    - apply list_elem_of_fmap_2, before_sentinel_reaches;
        [apply Zkeys_sorted| |done].
      apply (elem_of_tagged_keys Z.le). by rewrite Hm. }
  assert (∀ l, occurrences (IntKey i) (StrKey <$> l) = 0%nat) as Hstr.
  { intros l. apply occurrences_not_elem_of.
    by intros (? & [=] & _)%list_elem_of_fmap. }
  rewrite !occurrences_app, !Hstr. subst m.
  destruct (len c >? BLOB_SIZE).
  - rewrite Hout, Hin; [done| |]; by map_simpl.
  - rewrite Hin, Hout; [done| |]; by map_simpl.
Qed.

(** X7. Overwriting an integer key below the sentinel, whatever the sizes
    of the two values and in every store: the key reads back the second
    value and [keys()] lists it exactly once. *)
Lemma int_key_overwrite n i v1 v2 :
  is_None v1 = false →
  is_None v2 = false →
  i < BADNODE →
  ∃ n', (__setitem__ (IntKey i) v1 ;; __setitem__ (IntKey i) v2) n = (Return (), n')
    ∧ __getitem__ (IntKey i) n' = (Return v2, n')
    ∧ ∃ l, keys_result n' l ∧ occurrences (IntKey i) l = 1%nat.
Proof.
  intros Hv1 Hv2 Hi. unfold bind at 1.
  rewrite (setitem_int n), _intset_eq by done.
  set (n1 := mk_netnode _ _).
  destruct (int_key_round_trip n1 i v2 Hv2) as (n' & Hset & Hget).
  destruct (int_key_listed_once n1 i v2 Hv2 Hi) as (n'' & Hset' & Hkeys).
  rewrite Hset in Hset'. injection Hset' as <-. by exists n'.
Qed.
End sound_paths.

(** ** The theorems at concrete stores *)

Lemma getitem_dangling_forwarding_corrupt_witness :
  __getitem__ (V:=option bytes) (StrKey "name") dangling_store
    = (Raise NetnodeCorruptError, dangling_store).
Proof.
  apply (getitem_dangling_forwarding_corrupt (V:=option bytes) dangling_store "name" 7);
    reflexivity.
Defined.

Lemma getitem_prefers_blob_placement_witness :
  __getitem__ (V:=option bytes) (IntKey 3) doubled_store
    = (Return small_value, doubled_store).
Proof.
  exact (getitem_prefers_blob_placement (V:=option bytes) doubled_store (IntKey 3)
           (Some (compress (encode small_value)))
           (PStr (compress (encode large_value))) eq_refl eq_refl).
Defined.

Lemma setitem_placement_by_size_witness :
  (forwarding_typed empty_netnode →
     ∃ n', __setitem__ (StrKey "name") large_value empty_netnode = (Return (), n'))
  ∧ (∀ n', __setitem__ (StrKey "name") large_value empty_netnode = (Return (), n') →
       (direct_slot n' (StrKey "name") = Some (PStr (compress (encode large_value)))
          ↔ len (compress (encode large_value)) ≤ BLOB_SIZE)
       ∧ (blob_placement n' (StrKey "name") = Some (Some (compress (encode large_value)))
          ↔ len (compress (encode large_value)) > BLOB_SIZE)).
Proof.
  apply (setitem_placement_by_size empty_netnode (StrKey "name") large_value);
    [reflexivity|discriminate].
Defined.

Lemma setitem_small_over_large_unreadable_witness :
  ∃ n', (__setitem__ (StrKey "name") large_value ;;
         __setitem__ (StrKey "name") small_value) empty_netnode = (Return (), n')
    ∧ __getitem__ (V:=option bytes) (StrKey "name") n' = (Raise NetnodeCorruptError, n').
Proof.
  apply (setitem_small_over_large_unreadable empty_netnode "name" large_value small_value);
    [reflexivity|reflexivity|by vm_compute|by vm_compute|apply forwarding_typed_empty].
Defined.

Lemma delitem_large_string_key_leaves_forwarding_witness :
  ∃ n', (__setitem__ (StrKey "name") large_value ;; __delitem__ (StrKey "name"))
          empty_netnode = (Return (), n')
    ∧ blob_placement n' (StrKey "name") = Some None
    ∧ __getitem__ (V:=option bytes) (StrKey "name") n' = (Raise NetnodeCorruptError, n')
    ∧ __contains__ (V:=option bytes) (StrKey "name") n' = (Raise NetnodeCorruptError, n').
Proof.
  apply (delitem_large_string_key_leaves_forwarding empty_netnode "name" large_value);
    [reflexivity|by vm_compute|apply forwarding_typed_empty].
Defined.

Lemma overwrite_string_key_across_sizes_witness :
  let n := after [SetItem (IntKey 3) large_value] in
  (∃ n', (__setitem__ (StrKey "name") small_value ;;
          __setitem__ (StrKey "name") large_value) n = (Return (), n')
     ∧ __getitem__ (StrKey "name") n' = (Return large_value, n')
     ∧ ∃ l, keys_result n' l ∧ StrKey "name" ∉ l)
  ∧ (∃ n', (__setitem__ (StrKey "name") large_value ;;
            __setitem__ (StrKey "name") small_value) n = (Return (), n')
       ∧ __getitem__ (V:=option bytes) (StrKey "name") n'
           = (Raise NetnodeCorruptError, n')).
Proof.
  apply (overwrite_string_key_across_sizes (CodecLaws0:=plain_codec_laws)
           [SetItem (IntKey 3) large_value] "name" small_value large_value);
    [reflexivity|reflexivity|by vm_compute|by vm_compute].
Defined.

Lemma keys_omits_large_string_key_witness :
  ∃ n', __setitem__ (StrKey "name") large_value
          (after [SetItem (IntKey 3) small_value; DelItem (StrKey "name")])
          = (Return (), n')
    ∧ __getitem__ (StrKey "name") n' = (Return large_value, n')
    ∧ ∃ l, keys_result n' l ∧ StrKey "name" ∉ l.
Proof.
  apply (keys_omits_large_string_key (CodecLaws0:=plain_codec_laws)
           [SetItem (IntKey 3) small_value; DelItem (StrKey "name")]
           "name" large_value);
    [reflexivity|by vm_compute].
Defined.

Lemma delitem_KeyError_iff_no_placement_witness :
  ∃ n', __delitem__ (StrKey "name") (after [SetItem (StrKey "name") small_value])
          = (Return (), n').
Proof.
  apply (delitem_KeyError_iff_no_placement (CodecLaws0:=plain_codec_laws)
           [SetItem (StrKey "name") small_value] (StrKey "name"));
    [discriminate|]. by vm_compute; intros [[=] _].
Defined.

(** The store in which [_strdel] takes a present key for an absent one. *)
Example delitem_empty_slot :
  _strget "name" empty_slot_store = (Return (PStr []), empty_slot_store)
  ∧ __delitem__ (StrKey "name") empty_slot_store = (Raise KeyError, empty_slot_store).
Proof.
  apply (delitem_falsy_direct_slot empty_slot_store "name" (PStr [])); reflexivity.
Defined.

(** ** What reading and failing never do *)

Section untouched_store.
Context {V : Type} `{Codec V}.

Lemma decoded_store v n :
  ((let! d := _decompress v in _decode d) n).2 = n.
Proof.
  unfold bind, _decompress, _decode.
  destruct v as [b|i]; [|done].
  destruct (decompress b) as [d|]; [|done]. simpl.
  by destruct (decode d).
Qed.

Lemma getitem_store k n : (__getitem__ k n).2 = n.
Proof.
  destruct k as [i|s|]; [| |done].
  - rewrite getitem_IntKey_eq, _intget_eq.
    destruct (sups n !! (INT_KEYS_TAG, i)) as [b|]; [apply decoded_store|].
    destruct (sups n !! (stag, i)) as [b|]; [apply decoded_store|done].
  - rewrite getitem_StrKey_eq, _strget_eq.
    destruct (hashes n !! (STR_TO_INT_MAP_TAG, s)) as [[b|j]|]; [done| |].
    + destruct (sups n !! (STR_KEYS_TAG, j)); [apply decoded_store|done].
    + destruct (hashes n !! (htag, s)); [apply decoded_store|done].
Qed.

(** [read] is all there is to [__getitem__]. *)
Lemma getitem_read k n : __getitem__ k n = (read n k, n).
Proof.
  unfold read. pose proof (getitem_store k n) as Hs.
  destruct (__getitem__ k n) as [o n']. simpl in *. by subst.
Qed.

(** X1. Reading never writes: [__getitem__], [get] and [__contains__] leave
    the store as it is, whatever they return or raise. *)
Theorem reads_leave_store k default n :
  (__getitem__ k n).2 = n
  ∧ (get k default n).2 = n
  ∧ (__contains__ k n).2 = n.
Proof.
  split; [apply getitem_store|].
  unfold get, __contains__, except_KeyError. unfold bind at 1.
  rewrite getitem_read.
  destruct (read n k) as [v|e]; split; try (by destruct e); try done.
  by destruct (is_None v).
Qed.

(** X3. A write or a deletion that raises has changed nothing: when
    [__setitem__] or [__delitem__] raises, whatever the exception, the store
    is the one the call started from. *)
Theorem failed_write_leaves_store k value n :
  (∀ e n', __setitem__ k value n = (Raise e, n') → n' = n)
  ∧ (∀ e n', __delitem__ k n = (Raise e, n') → n' = n).
Proof.
  split; intros e n'.
  - destruct (is_None value) eqn:Hv.
    { unfold __setitem__. rewrite Hv. by intros [= _ <-]. }
    destruct k as [i|s|].
    + by rewrite setitem_int, _intset_eq.
    + rewrite setitem_str by done.
      destruct (hashes n !! (STR_TO_INT_MAP_TAG, s)) as [[b|j]|] eqn:Ef.
      * rewrite (_strset_ill_typed _ _ b) by done. by intros [= _ <-].
      * rewrite _strset_eq by (intros b; by rewrite Ef). simpl.
        by destruct (len (compress (encode value)) >? BLOB_SIZE).
      * rewrite _strset_eq by (intros b; by rewrite Ef). simpl.
        by destruct (len (compress (encode value)) >? BLOB_SIZE).
    + unfold __setitem__. rewrite Hv. by intros [= _ <-].
  - destruct k as [i|s|]; simpl.
    + rewrite _intdel_eq. destruct (_ || _); [done|by intros [= _ <-]].
    + rewrite _strdel_eq.
      destruct (hashes n !! (STR_TO_INT_MAP_TAG, s)) as [[b|j]|];
        try destruct (from_option truthy false (hashes n !! (htag, s)));
        try done; by intros [= _ <-].
    + by intros [= _ <-].
Qed.
End untouched_store.

(** ** The enumerations *)

Lemma tour_sup_store tag fuel : ∀ i n, (tour_sup tag fuel i n).2 = n.
Proof.
  induction fuel as [|fuel IH]; intros i n; simpl; [done|].
  destruct (decide (i ≠ BADNODE)); [|done].
  unfold bind, supnxt. specialize (IH (default BADNODE (next_after i (Zkeys (sups n) tag))) n).
  by destruct (tour_sup tag fuel _ n) as [[r|e] n'].
Qed.

Lemma tour_hash_store tag fuel : ∀ i n, (tour_hash tag fuel i n).2 = n.
Proof.
  induction fuel as [|fuel IH]; intros i n; simpl; [done|].
  destruct i as [s|]; [|done].
  unfold bind, hashnxt. specialize (IH (next_after s (Skeys (hashes n) tag)) n).
  by destruct (tour_hash tag fuel _ n) as [[r|e] n'].
Qed.

Section loops.
Context {A : Type}.

Lemma for_sup_store (body : Z → py A) tag fuel :
  (∀ i n, (body i n).2 = n) → ∀ i n, (for_sup body tag fuel i n).2 = n.
Proof.
  intros Hbody. induction fuel as [|fuel IH]; intros i n; simpl; [done|].
  destruct (decide (i ≠ BADNODE)); [|done].
  unfold bind at 1. specialize (Hbody i n).
  destruct (body i n) as [[a|e] n1]; simpl in Hbody; subst n1; [|done].
  unfold bind, supnxt.
  specialize (IH (default BADNODE (next_after i (Zkeys (sups n) tag))) n).
  by destruct (for_sup body tag fuel _ n) as [[r|e] n'].
Qed.

Lemma for_hash_store (body : string → py A) tag fuel :
  (∀ s n, (body s n).2 = n) → ∀ i n, (for_hash body tag fuel i n).2 = n.
Proof.
  intros Hbody. induction fuel as [|fuel IH]; intros i n; simpl; [done|].
  destruct i as [s|]; [|done].
  unfold bind at 1. specialize (Hbody s n).
  destruct (body s n) as [[a|e] n1]; simpl in Hbody; subst n1; [|done].
  unfold bind, hashnxt. specialize (IH (next_after s (Skeys (hashes n) tag)) n).
  by destruct (for_hash body tag fuel _ n) as [[r|e] n'].
Qed.

Lemma for_iterkeys_store (body : key → py A) fuel n :
  (∀ k n, (body k n).2 = n) → (for_iterkeys body fuel n).2 = n.
Proof.
  intros Hbody. unfold for_iterkeys, sup1st, hash1st. unfold bind at 1 2.
  pose proof (for_sup_store (λ i, body (IntKey i)) stag fuel
                (λ i, Hbody (IntKey i))) as H1.
  pose proof (for_sup_store (λ i, body (IntKey i)) INT_KEYS_TAG fuel
                (λ i, Hbody (IntKey i))) as H2.
  pose proof (for_hash_store (λ s, body (StrKey s)) htag fuel
                (λ s, Hbody (StrKey s))) as H3.
  pose proof (for_hash_store (λ s, body (StrKey s)) STR_KEYS_TAG fuel
                (λ s, Hbody (StrKey s))) as H4.
  match goal with |- context [for_sup ?b stag fuel ?i n] =>
    specialize (H1 i n); destruct (for_sup b stag fuel i n) as [[r1|e] n1] end;
    simpl in H1; subst n1; [|done].
  unfold bind at 1 2.
  match goal with |- context [for_sup ?b INT_KEYS_TAG fuel ?i n] =>
    specialize (H2 i n); destruct (for_sup b INT_KEYS_TAG fuel i n) as [[r2|e] n1] end;
    simpl in H2; subst n1; [|done].
  unfold bind at 1 2.
  match goal with |- context [for_hash ?b htag fuel ?i n] =>
    specialize (H3 i n); destruct (for_hash b htag fuel i n) as [[r3|e] n1] end;
    simpl in H3; subst n1; [|done].
  unfold bind at 1 2.
  match goal with |- context [for_hash ?b STR_KEYS_TAG fuel ?i n] =>
    specialize (H4 i n); destruct (for_hash b STR_KEYS_TAG fuel i n) as [[r4|e] n1] end;
    simpl in H4; subst n1; done.
Qed.

Lemma each_app {K} (f : K → outcome A) l1 l2 :
  each f (l1 ++ l2) =
    match each f l1 with
    | Return a =>
        match each f l2 with
        | Return b => Return (a ++ b)
        | Raise e => Raise e
        end
    | Raise e => Raise e
    end.
Proof.
  induction l1 as [|k l1 IH]; simpl; [by destruct (each f l2)|].
  destruct (f k) as [a|e]; [|done]. rewrite IH.
  destruct (each f l1) as [r|e]; [|done]. by destruct (each f l2).
Qed.

Lemma each_fmap {K K'} (f : K' → outcome A) (g : K → K') l :
  each f (g <$> l) = each (λ k, f (g k)) l.
Proof.
  induction l as [|k l IH]; [done|]. rewrite fmap_cons. simpl each.
  rewrite IH. by destruct (f (g k)).
Qed.

Lemma for_sup_run (body : Z → py A) (f : Z → outcome A) tag n rest :
  (∀ i, body i n = (f i, n)) →
  ∀ pre fuel,
  Zkeys (sups n) tag = pre ++ rest →
  (length rest < fuel)%nat →
  for_sup body tag fuel (default BADNODE (head rest)) n
    = (enumerated (each f (before_sentinel rest)), n).
Proof.
  intros Hbody.
  induction rest as [|i rest IH]; intros pre fuel Hk Hf;
    (destruct fuel as [|fuel]; [simpl in Hf; lia|]); simpl; [done|].
  destruct (decide (i ≠ BADNODE)) as [Hi|Hi]; [|done]. simpl.
  unfold bind at 1. rewrite Hbody. destruct (f i) as [a|e]; [|done].
  unfold bind at 1. unfold supnxt. rewrite Hk, next_after_app.
  - unfold bind. rewrite (IH (pre ++ [i]) fuel); [| |simpl in Hf; lia].
    + by destruct (each f (before_sentinel rest)).
    + by rewrite <-app_assoc.
  - pose proof (NoDup_tagged_keys Z.le (sups n) tag) as Hnd.
    fold (Zkeys (sups n) tag) in Hnd. rewrite Hk in Hnd.
    apply NoDup_app in Hnd as (_ & Hnd & _). intros Hin.
    apply (Hnd i Hin). by left.
Qed.

Lemma for_hash_run (body : string → py A) (f : string → outcome A) tag n rest :
  (∀ s, body s n = (f s, n)) →
  ∀ pre fuel,
  Skeys (hashes n) tag = pre ++ rest →
  (length rest < fuel)%nat →
  for_hash body tag fuel (head rest) n = (enumerated (each f rest), n).
Proof.
  intros Hbody.
  induction rest as [|i rest IH]; intros pre fuel Hk Hf;
    (destruct fuel as [|fuel]; [simpl in Hf; lia|]); simpl; [done|].
  unfold bind at 1. rewrite Hbody. destruct (f i) as [a|e]; [|done].
  unfold bind at 1. unfold hashnxt. rewrite Hk, next_after_app.
  - unfold bind. rewrite (IH (pre ++ [i]) fuel); [| |simpl in Hf; lia].
    + by destruct (each f rest).
    + by rewrite <-app_assoc.
  - pose proof (NoDup_tagged_keys strle (hashes n) tag) as Hnd.
    fold (Skeys (hashes n) tag) in Hnd. rewrite Hk in Hnd.
    apply NoDup_app in Hnd as (_ & Hnd & _). intros Hin.
    apply (Hnd i Hin). by left.
Qed.

(** A loop over [iterkeys] whose body does not write runs the body on the
    keys of [keys()], in their order, up to the first exception. *)
Lemma for_iterkeys_run (body : key → py A) (f : key → outcome A) n fuel :
  (∀ k, body k n = (f k, n)) →
  (size (sups n) + size (hashes n) < fuel)%nat →
  for_iterkeys body fuel n = (enumerated (each f (all_keys n)), n).
Proof.
  intros Hbody Hf. unfold for_iterkeys, all_keys.
  pose proof (length_tagged_keys Z.le (sups n) stag) as H1.
  pose proof (length_tagged_keys Z.le (sups n) INT_KEYS_TAG) as H2.
  pose proof (length_tagged_keys strle (hashes n) htag) as H3.
  pose proof (length_tagged_keys strle (hashes n) STR_KEYS_TAG) as H4.
  rewrite !each_app, !each_fmap.
  unfold bind at 1 2. unfold sup1st.
  rewrite (for_sup_run _ (λ i, f (IntKey i)) stag n _ (λ i, Hbody (IntKey i)) [])
    by (done || (fold (Zkeys (sups n) stag) in H1; lia)).
  destruct (each _ (before_sentinel (Zkeys (sups n) stag))) as [r1|e]; [|done].
  unfold bind at 1 2.
  rewrite (for_sup_run _ (λ i, f (IntKey i)) INT_KEYS_TAG n _ (λ i, Hbody (IntKey i)) [])
    by (done || (fold (Zkeys (sups n) INT_KEYS_TAG) in H2; lia)).
  destruct (each _ (before_sentinel (Zkeys (sups n) INT_KEYS_TAG))) as [r2|e]; [|done].
  unfold bind at 1 2. unfold hash1st.
  rewrite (for_hash_run _ (λ s, f (StrKey s)) htag n _ (λ s, Hbody (StrKey s)) [])
    by (done || (fold (Skeys (hashes n) htag) in H3; lia)).
  destruct (each _ (Skeys (hashes n) htag)) as [r3|e]; [|done].
  unfold bind at 1 2.
  rewrite (for_hash_run _ (λ s, f (StrKey s)) STR_KEYS_TAG n _ (λ s, Hbody (StrKey s)) [])
    by (done || (fold (Skeys (hashes n) STR_KEYS_TAG) in H4; lia)).
  by destruct (each _ (Skeys (hashes n) STR_KEYS_TAG)) as [r4|e].
Qed.
End loops.

Section enumerations.
Context {V : Type} `{Codec V}.

Lemma item_store k n : ((let! v := __getitem__ k in ret (k, v)) n).2 = n.
Proof. unfold bind. rewrite getitem_read. by destruct (read n k). Qed.

Lemma keys_store fuel n : (keys fuel n).2 = n.
Proof.
  unfold keys, iterkeys, sup1st, hash1st. unfold bind at 1 2.
  match goal with |- context [tour_sup stag fuel ?i n] =>
    pose proof (tour_sup_store stag fuel i n) as H1;
    destruct (tour_sup stag fuel i n) as [[r1|e] n1] end;
    simpl in H1; subst n1; [|done].
  unfold bind at 1 2.
  match goal with |- context [tour_sup INT_KEYS_TAG fuel ?i n] =>
    pose proof (tour_sup_store INT_KEYS_TAG fuel i n) as H2;
    destruct (tour_sup INT_KEYS_TAG fuel i n) as [[r2|e] n1] end;
    simpl in H2; subst n1; [|done].
  unfold bind at 1 2.
  match goal with |- context [tour_hash htag fuel ?i n] =>
    pose proof (tour_hash_store htag fuel i n) as H3;
    destruct (tour_hash htag fuel i n) as [[r3|e] n1] end;
    simpl in H3; subst n1; [|done].
  unfold bind at 1 2.
  match goal with |- context [tour_hash STR_KEYS_TAG fuel ?i n] =>
    pose proof (tour_hash_store STR_KEYS_TAG fuel i n) as H4;
    destruct (tour_hash STR_KEYS_TAG fuel i n) as [[r4|e] n1] end;
    simpl in H4; subst n1; done.
Qed.

(** X2. Enumerating never writes: [keys], [values] and [items] leave the
    store as it is, whether they return, raise, or are cut off. *)
Theorem enumerations_leave_store fuel n :
  (keys fuel n).2 = n
  ∧ (values fuel n).2 = n
  ∧ (items fuel n).2 = n.
Proof.
  split; [apply keys_store|]. split.
  - apply for_iterkeys_store. apply getitem_store.
  - apply for_iterkeys_store. apply item_store.
Qed.

(** X19. The loops of [iterkeys] end on every store: [keys()] returns one
    list, the same for every bound on the iterations above some bound. *)
Theorem keys_terminates n :
  ∃ l, keys_result n l ∧ ∀ l', keys_result n l' → l' = l.
Proof.
  exists (all_keys n). split; [apply keys_result_all_keys|].
  apply keys_result_unique.
Qed.

(** X16. [values()] reads the keys of [keys()] in their order: it returns
    the values read when every read succeeds, and raises the exception of
    the first read that fails. *)
Theorem values_read_each_key n l :
  keys_result n l →
  ∃ fuel0, ∀ fuel, (fuel0 ≤ fuel)%nat →
    values fuel n = (enumerated (each (read n) l), n).
Proof.
  intros ->%keys_result_unique.
  exists (S (size (sups n) + size (hashes n))). intros fuel Hf.
  apply for_iterkeys_run; [intros k; apply getitem_read|lia].
Qed.

Lemma each_paired (n : netnode) (l : list key) :
  each (λ k, match read n k with
             | Return v => Return (k, v)
             | Raise e => Raise e
             end) l
  = match each (read n) l with
    | Return vs => Return (zip l vs)
    | Raise e => Raise e
    end.
Proof.
  induction l as [|k l IH]; simpl; [done|].
  destruct (read n k) as [v|e]; [|done]. rewrite IH.
  by destruct (each (read n) l).
Qed.

(** X17. [items()] pairs the keys of [keys()] with the values of
    [values()]: it returns the two lists zipped when every read succeeds,
    and raises the exception of the first read that fails. *)
Theorem items_zip_keys_values n l :
  keys_result n l →
  ∃ fuel0, ∀ fuel, (fuel0 ≤ fuel)%nat →
    items fuel n =
      (match each (read n) l with
       | Return vs => Return (Some (zip l vs))
       | Raise e => Raise e
       end, n).
Proof.
  intros ->%keys_result_unique.
  exists (S (size (sups n) + size (hashes n))). intros fuel Hf.
  unfold items, iteritems.
  rewrite (for_iterkeys_run _ (λ k, match read n k with
                                     | Return v => Return (k, v)
                                     | Raise e => Raise e
                                     end)); [| |lia].
  - rewrite each_paired. by destruct (each (read n) (all_keys n)).
  - intros k. unfold bind. rewrite getitem_read. by destruct (read n k).
Qed.
End enumerations.

(** ** Keys without a placement, and integer keys *)

Section integer_keys.
Context {V : Type} `{Codec V}.

Lemma int_absent_outcomes i default n :
  sups n !! (INT_KEYS_TAG, i) = None →
  sups n !! (stag, i) = None →
  __getitem__ (IntKey i) n = (Raise KeyError, n)
  ∧ get (IntKey i) default n = (Return default, n)
  ∧ __contains__ (IntKey i) n = (Return false, n)
  ∧ __delitem__ (IntKey i) n = (Raise KeyError, n).
Proof.
  intros Hb Hd.
  assert (__getitem__ (IntKey i) n = (Raise KeyError, n)) as Hg
    by (by rewrite getitem_IntKey_eq, _intget_eq, Hb, Hd).
  split; [done|]. unfold get, __contains__, except_KeyError. unfold bind at 1.
  rewrite Hg. repeat split. simpl. by rewrite _intdel_eq, Hb, Hd.
Qed.

Lemma str_absent_outcomes s default n :
  hashes n !! (STR_TO_INT_MAP_TAG, s) = None →
  hashes n !! (htag, s) = None →
  __getitem__ (StrKey s) n = (Raise KeyError, n)
  ∧ get (StrKey s) default n = (Return default, n)
  ∧ __contains__ (StrKey s) n = (Return false, n)
  ∧ __delitem__ (StrKey s) n = (Raise KeyError, n).
Proof.
  intros Hf Hd.
  assert (__getitem__ (StrKey s) n = (Raise KeyError, n)) as Hg
    by (by rewrite getitem_StrKey_eq, _strget_eq, Hf, Hd).
  split; [done|]. unfold get, __contains__, except_KeyError. unfold bind at 1.
  rewrite Hg. repeat split. simpl. by rewrite _strdel_eq, Hf, Hd.
Qed.

(** X9. A key without a placement, in a store whose forwarding space holds
    node indexes: reading it raises [KeyError], [get] returns the default,
    [__contains__] answers [False] and deleting it raises [KeyError]; the
    store stays as it is in all four. *)
Theorem absent_key_outcomes n k default :
  k ≠ OtherKey →
  forwarding_typed n →
  direct_slot n k = None →
  blob_placement n k = None →
  __getitem__ k n = (Raise KeyError, n)
  ∧ get k default n = (Return default, n)
  ∧ __contains__ k n = (Return false, n)
  ∧ __delitem__ k n = (Raise KeyError, n).
Proof.
  intros Hk Hty Hd Hb. destruct k as [i|s|]; [| |done]; simpl in Hd, Hb.
  - apply fmap_None in Hd, Hb. by apply int_absent_outcomes.
  - apply str_absent_outcomes; [|done]. pose proof (Hty s) as Hs.
    destruct (hashes n !! (STR_TO_INT_MAP_TAG, s)) as [[b|j]|]; [|done|done].
    by destruct (Hs b).
Qed.

Lemma sups_recleared (m : gmap (ascii * Z) bytes) i tag c :
  tag = INT_KEYS_TAG ∨ tag = stag →
  delete (stag, i) (delete (INT_KEYS_TAG, i)
    (<[(tag, i):=c]> (delete (stag, i) (delete (INT_KEYS_TAG, i) m))))
  = delete (stag, i) (delete (INT_KEYS_TAG, i) m).
Proof.
  intros Ht. apply map_eq. intros k.
  rewrite !lookup_delete, lookup_insert, !lookup_delete.
  destruct Ht as [-> | ->]; repeat case_decide; congruence.
Qed.

(** X5. Last writer wins, for integer keys: writing a value over another
    leaves the very store that writing it alone would have left, whatever
    the sizes of the two values. *)
Theorem int_key_overwrite_single_write n i v1 v2 :
  is_None v1 = false →
  is_None v2 = false →
  (__setitem__ (IntKey i) v1 ;; __setitem__ (IntKey i) v2) n
    = __setitem__ (IntKey i) v2 n.
Proof.
  intros Hv1 Hv2. unfold bind at 1.
  rewrite (setitem_int n i v1), _intset_eq by done.
  rewrite !setitem_int, !_intset_eq by done. unfold int_cleared. simpl.
  rewrite sups_recleared; [done|].
  destruct (len (compress (encode v1)) >? BLOB_SIZE); [by left|by right].
Qed.

Lemma IntKey_listed_placed n i :
  IntKey i ∈ all_keys n →
  is_Some (sups n !! (stag, i)) ∨ is_Some (sups n !! (INT_KEYS_TAG, i)).
Proof.
  rewrite elem_of_all_keys_IntKey.
  intros [Hi|Hi]; [left|right];
    by apply (elem_of_tagged_keys Z.le), elem_of_before_sentinel.
Qed.

(** X6. Deleting an integer key that was just written, in any store: the
    key is left without a direct slot and without a blob, [keys()] does not
    list it, and deleting it once more raises [KeyError]. *)
Theorem int_key_deleted_is_absent n i v :
  is_None v = false →
  ∃ n', (__setitem__ (IntKey i) v ;; __delitem__ (IntKey i)) n = (Return (), n')
    ∧ direct_slot n' (IntKey i) = None
    ∧ blob_placement n' (IntKey i) = None
    ∧ (∃ l, keys_result n' l ∧ IntKey i ∉ l)
    ∧ __delitem__ (IntKey i) n' = (Raise KeyError, n').
Proof.
  intros Hv. exists (int_cleared i n).
  assert (sups (int_cleared i n) !! (INT_KEYS_TAG, i) = None) as Hb
    by (simpl; by map_simpl).
  assert (sups (int_cleared i n) !! (stag, i) = None) as Hd
    by (simpl; by map_simpl).
  split; [|split; [|split; [|split]]].
  - unfold bind at 1. rewrite setitem_int, _intset_eq by done.
    simpl. rewrite _intdel_eq. unfold int_cleared. simpl.
    destruct (len (compress (encode v)) >? BLOB_SIZE); map_simpl; simpl;
      rewrite sups_recleared; auto.
  - simpl. by map_simpl.
  - simpl. by map_simpl.
  - exists (all_keys (int_cleared i n)). split; [apply keys_result_all_keys|].
    intros [[? Hin]|[? Hin]]%IntKey_listed_placed; congruence.
  - by apply (int_absent_outcomes i v).
Qed.
End integer_keys.

(** ** Writes under one key and reads of another *)

Section frames.
Context {V : Type} `{Codec V}.

Lemma decoded_fst v n n' :
  ((let! d := _decompress v in _decode d) n).1
  = ((let! d := _decompress v in _decode d) n').1.
Proof.
  unfold bind, _decompress, _decode.
  destruct v as [b|i]; [|done].
  destruct (decompress b) as [d|]; [|done]. simpl.
  by destruct (decode d).
Qed.

Lemma read_IntKey_agree n n' i :
  sups n' !! (INT_KEYS_TAG, i) = sups n !! (INT_KEYS_TAG, i) →
  sups n' !! (stag, i) = sups n !! (stag, i) →
  read n' (IntKey i) = read n (IntKey i).
Proof.
  intros Hb Hd. unfold read. rewrite !getitem_IntKey_eq, !_intget_eq, Hb, Hd.
  destruct (sups n !! (INT_KEYS_TAG, i)); [apply decoded_fst|].
  destruct (sups n !! (stag, i)); [apply decoded_fst|done].
Qed.

Lemma read_StrKey_agree n n' s :
  hashes n' !! (STR_TO_INT_MAP_TAG, s) = hashes n !! (STR_TO_INT_MAP_TAG, s) →
  hashes n' !! (htag, s) = hashes n !! (htag, s) →
  (∀ j, sups n' !! (STR_KEYS_TAG, j) = sups n !! (STR_KEYS_TAG, j)) →
  read n' (StrKey s) = read n (StrKey s).
Proof.
  intros Hf Hd Hb. unfold read. rewrite !getitem_StrKey_eq, !_strget_eq, Hf, Hd.
  destruct (hashes n !! (STR_TO_INT_MAP_TAG, s)) as [[b|j]|]; [done| |].
  - rewrite Hb. destruct (sups n !! (STR_KEYS_TAG, j)); [apply decoded_fst|done].
  - destruct (hashes n !! (htag, s)); [apply decoded_fst|done].
Qed.

Lemma int_cleared_other i n tag j :
  (tag, j) ≠ (INT_KEYS_TAG, i) → (tag, j) ≠ (stag, i) →
  sups (int_cleared i n) !! (tag, j) = sups n !! (tag, j).
Proof. intros H1 H2. unfold int_cleared. simpl. by rewrite !lookup_delete_ne. Qed.

Lemma intset_other i c n tag j :
  (tag, j) ≠ (INT_KEYS_TAG, i) → (tag, j) ≠ (stag, i) →
  sups (_intset i c n).2 !! (tag, j) = sups n !! (tag, j).
Proof.
  intros H1 H2. rewrite _intset_eq. simpl.
  rewrite lookup_insert_ne by (by destruct (len c >? BLOB_SIZE)).
  by rewrite !lookup_delete_ne.
Qed.

Lemma intdel_other i n tag j :
  (tag, j) ≠ (INT_KEYS_TAG, i) → (tag, j) ≠ (stag, i) →
  sups (_intdel i n).2 !! (tag, j) = sups n !! (tag, j).
Proof.
  intros H1 H2. rewrite _intdel_eq.
  destruct (_ || _); [by apply int_cleared_other|done].
Qed.

(** X10. Writing or deleting an integer key changes what that key reads and
    nothing else: every other key, integer or string, reads after the call
    what it read before, in every store and whether the call returns or
    raises. *)
Theorem int_write_frame n i value k :
  k ≠ IntKey i →
  read (__setitem__ (IntKey i) value n).2 k = read n k
  ∧ read (__delitem__ (IntKey i) n).2 k = read n k.
Proof.
  intros Hk.
  assert (∀ n', hashes n' = hashes n →
    (∀ tag j, (tag, j) ≠ (INT_KEYS_TAG, i) → (tag, j) ≠ (stag, i) →
       sups n' !! (tag, j) = sups n !! (tag, j)) →
    read n' k = read n k) as Hframe.
  { intros n' Hh Hs. destruct k as [i'|s|]; [| |done].
    - apply read_IntKey_agree; apply Hs; congruence.
    - apply read_StrKey_agree; rewrite ?Hh; try done.
      intros j. by apply Hs. }
  split.
  - destruct (is_None value) eqn:Hv.
    { unfold __setitem__. by rewrite Hv. }
    rewrite setitem_int by done. apply Hframe.
    + by rewrite _intset_eq.
    + intros tag j. apply intset_other.
  - simpl __delitem__. apply Hframe.
    + rewrite _intdel_eq. by destruct (_ || _).
    + intros tag j. apply intdel_other.
Qed.

Lemma str_cleared_sups s n tag i :
  tag ≠ STR_KEYS_TAG →
  sups (str_cleared s n) !! (tag, i) = sups n !! (tag, i).
Proof.
  intros Ht. unfold str_cleared.
  destruct (hashes n !! (STR_TO_INT_MAP_TAG, s)) as [[b|j]|];
    try destruct (from_option truthy false (hashes n !! (htag, s)));
    simpl; try done; rewrite lookup_delete_ne; done || congruence.
Qed.

Lemma strset_sups s c n tag i :
  tag ≠ STR_KEYS_TAG →
  sups (_strset s c n).2 !! (tag, i) = sups n !! (tag, i).
Proof.
  intros Ht.
  destruct (hashes n !! (STR_TO_INT_MAP_TAG, s)) as [[b|j]|] eqn:Ef.
  { by rewrite (_strset_ill_typed _ _ b). }
  all: rewrite _strset_eq by (intros b; by rewrite Ef); simpl.
  all: destruct (len c >? BLOB_SIZE); simpl;
    rewrite ?lookup_insert_ne by congruence; by apply str_cleared_sups.
Qed.

Lemma strdel_sups s n tag i :
  tag ≠ STR_KEYS_TAG →
  sups (_strdel s n).2 !! (tag, i) = sups n !! (tag, i).
Proof.
  intros Ht. rewrite _strdel_eq.
  destruct (hashes n !! (STR_TO_INT_MAP_TAG, s)) as [[b|j]|];
    try destruct (from_option truthy false (hashes n !! (htag, s)));
    simpl; try done; by apply str_cleared_sups.
Qed.

Lemma setitem_StrKey_sups s value n tag i :
  tag ≠ STR_KEYS_TAG →
  sups (__setitem__ (StrKey s) value n).2 !! (tag, i) = sups n !! (tag, i).
Proof.
  intros Ht. destruct (is_None value) eqn:Hv.
  { unfold __setitem__. by rewrite Hv. }
  rewrite setitem_str by done. by apply strset_sups.
Qed.

(** X11. Writing or deleting a string key never changes what an integer key
    reads, in every store and whether the call returns or raises. *)
Theorem str_write_int_frame n s value i :
  read (__setitem__ (StrKey s) value n).2 (IntKey i) = read n (IntKey i)
  ∧ read (__delitem__ (StrKey s) n).2 (IntKey i) = read n (IntKey i).
Proof.
  split; apply read_IntKey_agree.
  - by apply setitem_StrKey_sups.
  - by apply setitem_StrKey_sups.
  - by apply strdel_sups.
  - by apply strdel_sups.
Qed.
End frames.

(** ** What [keys()] lists *)

Lemma tagged_keys_nil {K A} `{Countable K} (R : relation K)
    `{∀ x y, Decision (R x y)} (m : gmap (ascii * K) A) tag :
  (∀ k, m !! (tag, k) = None) → tagged_keys R m tag = [].
Proof.
  intros Hm. destruct (tagged_keys R m tag) as [|k l] eqn:E; [done|].
  assert (k ∈ tagged_keys R m tag) as Hin by (rewrite E; by left).
  apply elem_of_tagged_keys in Hin. rewrite Hm in Hin. by destruct Hin.
Qed.

(** X14. In every store, [keys()] lists an integer key below the sentinel
    exactly when the key has a direct slot or a blob. *)
Theorem int_key_listed_iff_placed n i l :
  i < BADNODE →
  keys_result n l →
  IntKey i ∈ l ↔
    is_Some (direct_slot n (IntKey i)) ∨ is_Some (blob_placement n (IntKey i)).
Proof.
  intros Hi ->%keys_result_unique. simpl. rewrite !fmap_is_Some. split.
  - apply IntKey_listed_placed.
  - intros Hp. apply elem_of_all_keys_IntKey.
    destruct Hp as [Hp|Hp]; [left|right];
      (apply before_sentinel_reaches; [apply Zkeys_sorted| |done]);
      by apply (elem_of_tagged_keys Z.le).
Qed.

Section listed.
Context {V : Type} `{Codec V} `{!CodecLaws V}.

Lemma one_int_placement_setitem k value n :
  one_int_placement n → one_int_placement (__setitem__ k value n).2.
Proof.
  intros Hinv. destruct (is_None value) eqn:Hv.
  { unfold __setitem__. by rewrite Hv. }
  destruct k as [i|s|].
  - rewrite setitem_int by done. intros i'.
    destruct (decide (i' = i)) as [->|Hne].
    + rewrite _intset_eq. simpl.
      destruct (len (compress (encode value)) >? BLOB_SIZE); map_simpl; auto.
    + rewrite !intset_other by congruence. apply Hinv.
  - intros i'. rewrite !setitem_StrKey_sups by done. apply Hinv.
  - unfold __setitem__. by rewrite Hv.
Qed.

Lemma one_int_placement_delitem k n :
  one_int_placement n → one_int_placement (__delitem__ k n).2.
Proof.
  intros Hinv. destruct k as [i|s|]; simpl; [| |done].
  - intros i'. destruct (decide (i' = i)) as [->|Hne].
    + rewrite _intdel_eq. destruct (_ || _); [|apply Hinv].
      simpl. map_simpl. by left.
    + rewrite !intdel_other by congruence. apply Hinv.
  - intros i'. rewrite !strdel_sups by done. apply Hinv.
Qed.

Lemma one_int_placement_after (history : list (op V)) :
  one_int_placement (after history).
Proof.
  unfold after. induction history as [|o history IH] using rev_ind; simpl.
  - intros i. left. apply lookup_empty.
  - rewrite foldl_app.
    change (one_int_placement (apply_op (foldl apply_op empty_netnode history) o)).
    destruct o as [k v|k|]; unfold apply_op.
    + by apply one_int_placement_setitem.
    + by apply one_int_placement_delitem.
    + intros i. left. apply lookup_empty.
Qed.

(** X12. What every history keeps.  After any finite sequence of writes,
    deletions and resets from the empty namespace: no integer key has both a
    direct slot and a blob, every forwarding record is a node index, every
    direct string slot holds a non-empty payload, and the string table
    tagged [STR_KEYS_TAG] is empty. *)
Theorem history_invariants (history : list (op V)) :
  one_int_placement (after history) ∧ class_invariant (after history).
Proof.
  split; [apply one_int_placement_after|apply class_invariant_after].
Qed.

(** X13. After any finite sequence of writes, deletions and resets,
    [keys()] returns a list in which no key occurs twice. *)
Theorem keys_no_repetition (history : list (op V)) :
  ∃ l, keys_result (after history) l ∧ NoDup l.
Proof.
  set (n := after history).
  exists (all_keys n). split; [apply keys_result_all_keys|].
  pose proof (one_int_placement_after history) as Hone.
  pose proof (class_invariant_after history) as (_ & _ & HN).
  fold n in Hone, HN. unfold all_keys.
  replace (Skeys (hashes n) STR_KEYS_TAG) with (@nil string)
    by (symmetry; by apply tagged_keys_nil).
  rewrite fmap_nil, app_nil_r.
  assert (∀ tag, NoDup (IntKey <$> before_sentinel (Zkeys (sups n) tag))) as Hint.
  { intros tag. apply NoDup_fmap_2_strong; [by intros ?? _ _ [=]|].
    apply NoDup_before_sentinel, (NoDup_tagged_keys Z.le). }
  assert (∀ tag k, k ∈ IntKey <$> before_sentinel (Zkeys (sups n) tag) →
            ∃ i, k = IntKey i ∧ is_Some (sups n !! (tag, i))) as Hin.
  { intros tag k (i & -> & Hi%elem_of_before_sentinel)%list_elem_of_fmap.
    exists i. split; [done|]. by apply (elem_of_tagged_keys Z.le). }
  apply NoDup_app. split; [apply Hint|]. split.
  - intros k (i & -> & [x Hx])%Hin [Hk|Hk]%elem_of_app.
    + apply Hin in Hk as (i' & [= <-] & [y Hy]).
      destruct (Hone i); congruence.
    + by apply list_elem_of_fmap in Hk as (? & [=] & _).
  - apply NoDup_app. split; [apply Hint|]. split.
    + intros k (i & -> & _)%Hin Hk.
      by apply list_elem_of_fmap in Hk as (? & [=] & _).
    + apply NoDup_fmap_2_strong; [by intros ?? _ _ [=]|].
      apply (NoDup_tagged_keys strle).
Qed.


(** X4. An integer key reads back what was written, in every store and on
    both sides of the threshold: [__getitem__] and [get] return the value,
    never the default, and [__contains__] answers [True]. *)
Theorem int_key_write_then_read n i value default :
  is_None value = false →
  ∃ n', __setitem__ (IntKey i) value n = (Return (), n')
    ∧ __getitem__ (IntKey i) n' = (Return value, n')
    ∧ get (IntKey i) default n' = (Return value, n')
    ∧ __contains__ (IntKey i) n' = (Return true, n').
Proof.
  intros Hv. destruct (int_key_round_trip n i value Hv) as (n' & Hset & Hget).
  exists n'. split; [done|]. split; [done|].
  unfold get, __contains__, except_KeyError. unfold bind at 1.
  rewrite Hget, Hv. by split.
Qed.
End listed.

Section small_string_values.
Context {V : Type} `{Codec V} `{!CodecLaws V}.

(** X20. A string key without a forwarding record that is given a small
    value and then deleted is left without any placement: reading it raises
    [KeyError], and so does deleting it once more. *)
Theorem str_key_small_deleted_is_absent n s value :
  is_None value = false →
  len (compress (encode value)) ≤ BLOB_SIZE →
  hashes n !! (STR_TO_INT_MAP_TAG, s) = None →
  ∃ n', (__setitem__ (StrKey s) value ;; __delitem__ (StrKey s)) n = (Return (), n')
    ∧ direct_slot n' (StrKey s) = None
    ∧ blob_placement n' (StrKey s) = None
    ∧ __getitem__ (StrKey s) n' = (Raise KeyError, n')
    ∧ __delitem__ (StrKey s) n' = (Raise KeyError, n').
Proof.
  intros Hv Hc Hf.
  destruct (strset_small n s (compress (encode value))) as (n1 & Hset & Hd & Hf1 & _);
    [intros b; by rewrite Hf|done|].
  exists (str_cleared s n1).
  assert (hashes (str_cleared s n1) !! (STR_TO_INT_MAP_TAG, s) = None) as Hf'
    by (by rewrite str_cleared_forwarding, Hf1).
  assert (hashes (str_cleared s n1) !! (htag, s) = None) as Hd'
    by (apply (str_cleared_direct_truthy s _ n1 Hd), truthy_compress).
  split; [|split; [done|split; [simpl; by rewrite Hf'|]]].
  - unfold bind at 1. rewrite setitem_str, Hset by done. simpl.
    rewrite _strdel_eq, Hf1, Hf, Hd. cbn [from_option]. by rewrite truthy_compress.
  - destruct (str_absent_outcomes s value _ Hf' Hd') as (Hg & _ & _ & Hdel).
    by split.
Qed.
End small_string_values.

(** ** The further theorems at concrete stores *)

Lemma int_key_write_then_read_witness :
  ∃ n', __setitem__ (IntKey 3) large_value dangling_store = (Return (), n')
    ∧ __getitem__ (IntKey 3) n' = (Return large_value, n')
    ∧ get (IntKey 3) small_value n' = (Return large_value, n')
    ∧ __contains__ (IntKey 3) n' = (Return true, n').
Proof.
  apply (int_key_write_then_read (CodecLaws0:=plain_codec_laws)
           dangling_store 3 large_value small_value).
  reflexivity.
Defined.

Lemma int_key_overwrite_single_write_witness :
  (__setitem__ (IntKey 3) small_value ;; __setitem__ (IntKey 3) large_value)
    doubled_store
  = __setitem__ (IntKey 3) large_value doubled_store.
Proof.
  apply (int_key_overwrite_single_write doubled_store 3 small_value large_value);
    reflexivity.
Defined.

Lemma int_key_deleted_is_absent_witness :
  ∃ n', (__setitem__ (IntKey 3) large_value ;; __delitem__ (IntKey 3)) doubled_store
          = (Return (), n')
    ∧ direct_slot n' (IntKey 3) = None
    ∧ blob_placement n' (IntKey 3) = None
    ∧ (∃ l, keys_result n' l ∧ IntKey 3 ∉ l)
    ∧ __delitem__ (IntKey 3) n' = (Raise KeyError, n').
Proof.
  apply (int_key_deleted_is_absent doubled_store 3 large_value). reflexivity.
Defined.

Lemma int_key_overwrite_witness :
  ∃ n', (__setitem__ (IntKey 3) small_value ;; __setitem__ (IntKey 3) large_value)
          empty_netnode = (Return (), n')
    ∧ __getitem__ (IntKey 3) n' = (Return large_value, n')
    ∧ ∃ l, keys_result n' l ∧ occurrences (IntKey 3) l = 1%nat.
Proof.
  apply (int_key_overwrite (CodecLaws0:=plain_codec_laws)
           empty_netnode 3 small_value large_value);
    [reflexivity|reflexivity|by vm_compute].
Defined.

Lemma str_key_round_trip_witness :
  ∃ n', __setitem__ (StrKey "name") large_value dangling_store = (Return (), n')
    ∧ __getitem__ (StrKey "name") n' = (Return large_value, n').
Proof.
  apply (str_key_round_trip (CodecLaws0:=plain_codec_laws)
           dangling_store "name" large_value).
  - reflexivity.
  - intros s b. unfold dangling_store. simpl.
    destruct (decide (s = "name"%string)) as [->|Hne].
    + by rewrite lookup_singleton_eq.
    + rewrite lookup_singleton_ne; [done|congruence].
  - left. by vm_compute.
Defined.

Lemma absent_key_outcomes_witness :
  __getitem__ (V:=option bytes) (StrKey "other") two_key_store
    = (Raise KeyError, two_key_store)
  ∧ get (StrKey "other") small_value two_key_store = (Return small_value, two_key_store)
  ∧ __contains__ (V:=option bytes) (StrKey "other") two_key_store
      = (Return false, two_key_store)
  ∧ __delitem__ (StrKey "other") two_key_store = (Raise KeyError, two_key_store).
Proof.
  apply (absent_key_outcomes two_key_store (StrKey "other") small_value);
    [discriminate| |reflexivity|reflexivity].
  apply (class_invariant_after (CodecLaws0:=plain_codec_laws)).
Defined.

Lemma int_write_frame_witness :
  read (__setitem__ (IntKey 4) small_value two_key_store).2 (IntKey 3)
    = read two_key_store (IntKey 3)
  ∧ read (V:=option bytes) (__delitem__ (IntKey 4) two_key_store).2 (IntKey 3)
    = read two_key_store (IntKey 3).
Proof.
  apply (int_write_frame two_key_store 4 small_value (IntKey 3)). discriminate.
Defined.

Lemma history_invariants_witness :
  one_int_placement two_key_store ∧ class_invariant two_key_store.
Proof.
  apply (history_invariants (CodecLaws0:=plain_codec_laws)
           [SetItem (IntKey 3) large_value; SetItem (StrKey "name") small_value]).
Defined.

Lemma keys_no_repetition_witness :
  ∃ l, keys_result two_key_store l ∧ NoDup l.
Proof.
  apply (keys_no_repetition (CodecLaws0:=plain_codec_laws)
           [SetItem (IntKey 3) large_value; SetItem (StrKey "name") small_value]).
Defined.

Lemma int_key_listed_iff_placed_witness :
  IntKey 3 ∈ all_keys two_key_store ↔
    is_Some (direct_slot two_key_store (IntKey 3))
    ∨ is_Some (blob_placement two_key_store (IntKey 3)).
Proof.
  apply (int_key_listed_iff_placed two_key_store 3 (all_keys two_key_store));
    [by vm_compute|apply keys_result_all_keys].
Defined.


Lemma values_read_each_key_witness :
  ∃ fuel0, ∀ fuel, (fuel0 ≤ fuel)%nat →
    values fuel two_key_store = (Return (Some [large_value; small_value]), two_key_store).
Proof.
  exact (values_read_each_key two_key_store [IntKey 3; StrKey "name"]
           (keys_result_all_keys two_key_store)).
Defined.

Lemma items_zip_keys_values_witness :
  ∃ fuel0, ∀ fuel, (fuel0 ≤ fuel)%nat →
    items fuel two_key_store
      = (Return (Some [(IntKey 3, large_value); (StrKey "name", small_value)]),
         two_key_store).
Proof.
  exact (items_zip_keys_values two_key_store [IntKey 3; StrKey "name"]
           (keys_result_all_keys two_key_store)).
Defined.

Lemma str_key_small_deleted_is_absent_witness :
  ∃ n', (__setitem__ (StrKey "name") small_value ;; __delitem__ (StrKey "name"))
          empty_netnode = (Return (), n')
    ∧ direct_slot n' (StrKey "name") = None
    ∧ blob_placement n' (StrKey "name") = None
    ∧ __getitem__ (V:=option bytes) (StrKey "name") n' = (Raise KeyError, n')
    ∧ __delitem__ (StrKey "name") n' = (Raise KeyError, n').
Proof.
  apply (str_key_small_deleted_is_absent (CodecLaws0:=plain_codec_laws)
           empty_netnode "name" small_value);
    [reflexivity|by vm_compute|reflexivity].
Defined.

(** ** Payloads the codec rejects *)

Section rejected_payloads.
Context {V : Type} `{Codec V}.

(** X21. A stored payload that [zlib.decompress] or [json.loads] rejects is
    not taken for an absent key: when the placement of a key holds such a
    byte string, [__getitem__] raises the codec's error, [get] raises it too
    instead of returning the default, and so does [__contains__]; the
    payload stays in the store. *)
Theorem rejected_payload_is_not_absence n k b default :
  (match k with
   | IntKey i => _intget i n = (Return b, n)
   | StrKey s => _strget s n = (Return (PStr b), n)
   | OtherKey => False
   end) →
  decompress b = None ∨ (∃ d, decompress b = Some d ∧ decode d = None) →
  __getitem__ k n = (Raise CodecError, n)
  ∧ get k default n = (Raise CodecError, n)
  ∧ __contains__ k n = (Raise CodecError, n).
Proof.
  intros Hfetch Hbad.
  assert ((let! d := _decompress (PStr b) in _decode d) n = (Raise CodecError, n))
    as Hdec.
  { unfold bind, _decompress, _decode.
    destruct Hbad as [->|(d & -> & Hd)]; [done|]. simpl. by rewrite Hd. }
  assert (__getitem__ k n = (Raise CodecError, n)) as Hg.
  { destruct k as [i|s|]; [| |done].
    - by rewrite getitem_IntKey_eq, Hfetch.
    - by rewrite getitem_StrKey_eq, Hfetch. }
  split; [done|].
  unfold get, __contains__, except_KeyError. unfold bind at 1. by rewrite Hg.
Qed.
End rejected_payloads.

Lemma rejected_payload_is_not_absence_witness :
  let n := mk_netnode {[ (stag, 3) := [Byte.x00] ]} ∅ in
  __getitem__ (V:=option bytes) (IntKey 3) n = (Raise CodecError, n)
  ∧ get (IntKey 3) small_value n = (Raise CodecError, n)
  ∧ __contains__ (V:=option bytes) (IntKey 3) n = (Raise CodecError, n).
Proof.
  apply (rejected_payload_is_not_absence
           (mk_netnode {[ (stag, 3) := [Byte.x00] ]} ∅) (IntKey 3) [Byte.x00]
           small_value);
    [reflexivity|by left].
Defined.
